(** * A shallow embedding of the query layer of django-queryable-properties

    The embedded source is [queryable_properties/query.py]: the mixin that
    is injected into Django [Query] objects
    ([QueryablePropertiesQueryMixin]) and into SQL compilers
    ([QueryablePropertiesCompilerMixin]).  Django itself, the property
    objects and the resolver [resolve_queryable_property] are not part of
    the embedded source; they are parameters of the development (a record
    [Env]), so every theorem holds for every framework behaviour and every
    set of property definitions. *)

From Stdlib Require Import ZArith Ascii.
From stdpp Require Import base gmap sets list strings.

Set Warnings "-register-all".

(* ------------------------------------------------------------------ *)
(** ** Python values, filter trees and expressions *)

(** Python values that can reach [build_filter] as a filter expression or
    as a filter value.  [PObj] is any object that is not iterable (e.g. a
    [Q] node, which defines [__len__] but neither [__iter__] nor
    [__getitem__]). *)
Inductive PyVal :=
| PNone
| PBool (b : bool)
| PInt (z : Z)
| PStr (s : string)
| PTuple (items : list PyVal)
| PList (items : list PyVal)
| PDict (keys : list PyVal)
| PObj (id : nat).

(** A [QueryPath]: a lookup path split on the lookup separator [__]. *)
Abbreviation QueryPath := (list string).

Inductive Connector := AND | OR.

(** Django's [Q] trees: the leaves are the raw children handed to
    [build_filter]. *)
Inductive Q :=
| QLeaf (child : PyVal)
| QNode (conn : Connector) (negated : bool) (children : list Q).

(** The WHERE tree produced by filter building. [WNative] is a condition
    built by Django's own [build_filter]. *)
Inductive Where :=
| WNative (expr : PyVal)
| WNode (conn : Connector) (negated : bool) (children : list Where).

(** Query expressions: [F] references, constants, aggregates, functions,
    resolved columns and [Ref]s to annotations of an inner query. *)
Inductive Expr :=
| EF (name : QueryPath)
| EValue (v : PyVal)
| EAgg (source : Expr)
| EFunc (args : list Expr)
| ECol (path : QueryPath)
| ERef (name : QueryPath) (source : Expr).

Fixpoint contains_aggregate (e : Expr) : bool :=
  match e with
  | EAgg _ => true
  | EFunc args => existsb contains_aggregate args
  | ERef _ src => contains_aggregate src
  | _ => false
  end.

(* ------------------------------------------------------------------ *)
(** ** Property references *)

(** [QueryablePropertyReference]: two references are equal iff they name
    the same property behind the same relation path. *)
Record PropertyReference := mkRef {
  prop_name : string;
  relation_path : QueryPath;
}.

Global Instance PropertyReference_eq_dec : EqDecision PropertyReference.
Proof. solve_decision. Defined.

Global Instance PropertyReference_countable : Countable PropertyReference.
Proof.
  apply (inj_countable' (fun r => (prop_name r, relation_path r))
                        (fun p => mkRef p.1 p.2)).
  by intros [].
Defined.

(** [property_ref.full_path]: the relation path followed by the property
    name; its string form is the annotation alias.  The alias is kept as
    the path itself (the string form is injective on paths whose segments
    do not contain the separator). *)
Definition full_path (r : PropertyReference) : QueryPath :=
  relation_path r ++ [prop_name r].

(* ------------------------------------------------------------------ *)
(** ** Query state and the object store *)

(** Django's [query.group_by]: [None], [True] (group by all fields) or the
    tuple computed by [set_group_by]. *)
Inductive GroupBy := GBNone | GBAll | GBComputed.

Global Instance GroupBy_eq_dec : EqDecision GroupBy.
Proof. solve_decision. Defined.

(** Locations of mutable Python sets in the object store. *)
Abbreviation loc := positive.

(** The store of [set] objects: the [_queryable_property_annotations] set
    of a query lives here, so that sharing between a query and its copies
    is visible. *)
Abbreviation Heap := (gmap loc (gset PropertyReference)).

Record Query := mkQuery {
  annotations : gmap QueryPath Expr;
  annotation_select_mask : option (gset QueryPath);
  group_by : GroupBy;
  select : list QueryPath;
  qp_annotations : loc;                     (* _queryable_property_annotations *)
  qp_stack : list PropertyReference;        (* _queryable_property_stack *)
  use_marker : bool;                        (* _use_querying_properties_marker *)
}.

Definition set_at (h : Heap) (l : loc) : gset PropertyReference :=
  default ∅ (h !! l).

(** Allocation of a new [set()] object. *)
Definition alloc_set (h : Heap) (x : gset PropertyReference) : Heap * loc :=
  let l := fresh (dom h) in (<[l := x]> h, l).

(** [set.add] and [set.update] on the object at [l]. *)
Definition set_add (h : Heap) (l : loc) (r : PropertyReference) : Heap :=
  <[l := {[r]} ∪ set_at h l]> h.

Definition set_update (h : Heap) (l : loc) (other : gset PropertyReference) : Heap :=
  <[l := set_at h l ∪ other]> h.

(** [init_injected_attrs]: a fresh empty set, a fresh empty stack and the
    marker flag off. *)
Definition init_injected_attrs (h : Heap) (q : Query) : Heap * Query :=
  let '(h', l) := alloc_set h ∅ in
  (h', {| annotations := annotations q;
          annotation_select_mask := annotation_select_mask q;
          group_by := group_by q; select := select q;
          qp_annotations := l; qp_stack := []; use_marker := false |}).

(* ------------------------------------------------------------------ *)
(** ** Framework configuration, properties and the resolver *)

Inductive ChainMethodName := MClone | MChain.

Inductive Error :=
| QueryablePropertyError
| CircularDependency (r : PropertyReference)
| FieldError
| KeyError
| IndexError
| TypeError
| AttributeError.

(** Everything the mixin consumes but does not define: the compat
    constants, the property objects reached through a reference, the
    resolver, and the base methods of Django's [Query]. *)
Record Env := mkEnv {
  (* QUERY_CHAIN_METHOD_NAME *)
  query_chain_method : ChainMethodName;
  (* bool(ANNOTATION_TO_AGGREGATE_ATTRIBUTES_MAP): old Django versions *)
  annotation_to_aggregate_map : bool;
  (* ValuesQuerySet is not None *)
  values_queryset_exists : bool;
  (* resolve_queryable_property(self.model, query_path) *)
  resolve : QueryPath -> option (PropertyReference * QueryPath);
  (* property_ref.get_annotation(); None: the property cannot annotate *)
  get_annotation : PropertyReference -> option Expr;
  (* property_ref.get_filter(lookups, value); None: no filter *)
  get_filter : PropertyReference -> QueryPath -> PyVal -> option Q;
  (* property_ref.property.filter_requires_annotation *)
  filter_requires_annotation : PropertyReference -> bool;
  (* Django's names_to_path; None: FieldError *)
  base_names_to_path : QueryPath -> option QueryPath;
  (* Django's build_filter; None: FieldError *)
  base_build_filter : Query -> PyVal -> option Where;
  (* the concrete fields of the query's model (old versions' add_fields) *)
  concrete_fields : list QueryPath;
}.

Section Clone.
Context (env : Env).

(** Django's [Query.clone]: a copy of the instance dictionary.  The
    attribute [_queryable_property_annotations] of the copy still refers to
    the same set object. *)
Definition base_clone (self : Query) : Query := self.

(** [_postprocess_clone]: [inject_into_object] and the explicit call both
    run [init_injected_attrs]; then the new set is updated with this
    query's references. *)
Definition postprocess_clone (h : Heap) (self clone : Query) : Heap * Query :=
  let '(h1, c1) := init_injected_attrs h clone in
  let '(h2, c2) := init_injected_attrs h1 c1 in
  (set_update h2 (qp_annotations c2) (set_at h2 (qp_annotations self)), c2).

(** [clone]: post-processed only where [clone] is the chaining method. *)
Definition clone (h : Heap) (self : Query) : Heap * Query :=
  let obj := base_clone self in
  match query_chain_method env with
  | MClone => postprocess_clone h self obj
  | MChain => (h, obj)
  end.

(** [chain]: Django's [chain] starts with [self.clone()]; the method only
    exists on versions where it is the chaining method. *)
Definition chain (h : Heap) (self : Query) : option (Heap * Query) :=
  match query_chain_method env with
  | MChain =>
      let '(h1, obj) := clone h self in
      Some (postprocess_clone h1 self obj)
  | MClone => None
  end.

End Clone.

(* ------------------------------------------------------------------ *)
(** ** Python helpers used by [build_filter] *)

(** [str.split('__')]. *)
Fixpoint split_lookup_aux (acc : string) (s : string) : list string :=
  match s with
  | EmptyString => [acc]
  | String "_"%char (String "_"%char rest) => acc :: split_lookup_aux EmptyString rest
  | String c rest => split_lookup_aux (acc +:+ String c EmptyString) rest
  end.

Definition split_lookup (s : string) : QueryPath := split_lookup_aux EmptyString s.

(** [QueryPath(arg)] for the arguments that are strings or sequences of
    strings; anything else raises [TypeError] in the tuple constructor. *)
Definition query_path_of (arg : PyVal) : option QueryPath :=
  match arg with
  | PStr s => Some (split_lookup s)
  | PTuple items | PList items =>
      mapM (fun v => match v with PStr s => Some s | _ => None end) items
  | _ => None
  end.

Fixpoint string_chars (s : string) : list PyVal :=
  match s with
  | EmptyString => []
  | String c rest => PStr (String c EmptyString) :: string_chars rest
  end.

(** The outcome of [arg, value = filter_expr]. *)
Inductive Unpack :=
| Unpacked (arg value : PyVal)
| UnpackTypeError     (* the object is not iterable *)
| UnpackValueError.   (* not exactly two items *)

Definition unpack_items (items : list PyVal) : Unpack :=
  match items with
  | [a; b] => Unpacked a b
  | _ => UnpackValueError
  end.

Definition unpack2 (v : PyVal) : Unpack :=
  match v with
  | PTuple items | PList items | PDict items => unpack_items items
  | PStr s => unpack_items (string_chars s)
  | PNone | PBool _ | PInt _ | PObj _ => UnpackTypeError
  end.

(* ------------------------------------------------------------------ *)
(** ** The query state monad *)

(** The state of one query: the object store and the query's attributes. *)
Record St := mkSt { heap : Heap; query : Query }.

(** Python's outcomes: a value, a raised exception (with the state at the
    time it propagates), or exhausted fuel (the stand-in for a recursion
    that does not end). *)
Inductive Res (A : Type) :=
| ROk (a : A) (s : St)
| RErr (e : Error) (s : St)
| RFuel.
Arguments ROk {A} a s.
Arguments RErr {A} e s.
Arguments RFuel {A}.

Definition M (A : Type) := St -> Res A.

Definition ret {A} (a : A) : M A := fun s => ROk a s.

Definition bind {A B} (m : M A) (k : A -> M B) : M B :=
  fun s => match m s with
           | ROk a s' => k a s'
           | RErr e s' => RErr e s'
           | RFuel => RFuel
           end.

Notation "'mlet' x ':=' m 'in' k" := (bind m (fun x => k))
  (at level 200, x name, m at level 100, k at level 200).

Definition raise {A} (e : Error) : M A := fun s => RErr e s.
Definition get_st : M St := fun s => ROk s s.
Definition modify_query (f : Query -> Query) : M unit :=
  fun s => ROk tt (mkSt (heap s) (f (query s))).

Fixpoint mapM_M {A B} (g : A -> M B) (l : list A) : M (list B) :=
  match l with
  | [] => ret []
  | x :: xs => mlet y := g x in mlet ys := mapM_M g xs in ret (y :: ys)
  end.

(** Record updates of the query attributes. *)
Definition with_annotations (q : Query) (a : gmap QueryPath Expr) : Query :=
  mkQuery a (annotation_select_mask q) (group_by q) (select q)
          (qp_annotations q) (qp_stack q) (use_marker q).
Definition with_mask (q : Query) (m : option (gset QueryPath)) : Query :=
  mkQuery (annotations q) m (group_by q) (select q)
          (qp_annotations q) (qp_stack q) (use_marker q).
Definition with_group_by (q : Query) (g : GroupBy) : Query :=
  mkQuery (annotations q) (annotation_select_mask q) g (select q)
          (qp_annotations q) (qp_stack q) (use_marker q).
Definition with_select (q : Query) (sel : list QueryPath) : Query :=
  mkQuery (annotations q) (annotation_select_mask q) (group_by q) sel
          (qp_annotations q) (qp_stack q) (use_marker q).
Definition with_stack (q : Query) (st : list PropertyReference) : Query :=
  mkQuery (annotations q) (annotation_select_mask q) (group_by q) (select q)
          (qp_annotations q) st (use_marker q).
Definition with_marker (q : Query) (b : bool) : Query :=
  mkQuery (annotations q) (annotation_select_mask q) (group_by q) (select q)
          (qp_annotations q) (qp_stack q) b.

(** [self._queryable_property_stack[-1]] guarded by the truthiness test. *)
Definition stack_top (q : Query) : option PropertyReference := last (qp_stack q).

(** [self._queryable_property_stack.append(r)] and [.pop()]. *)
Definition push_stack (r : PropertyReference) : M unit :=
  modify_query (fun q => with_stack q (qp_stack q ++ [r])).

Definition pop_stack : M unit :=
  fun s => match qp_stack (query s) with
           | [] => RErr IndexError s
           | st => ROk tt (mkSt (heap s) (with_stack (query s) (removelast st)))
           end.

(** [self._queryable_property_annotations.add(r)]. *)
Definition qp_annotations_add (r : PropertyReference) : M unit :=
  fun s => ROk tt (mkSt (set_add (heap s) (qp_annotations (query s)) r) (query s)).

(** Django's [set_annotation_mask(names)] and [append_annotation_mask]. *)
Definition set_annotation_mask (names : gset QueryPath) : M unit :=
  modify_query (fun q => with_mask q (Some names)).

Definition append_annotation_mask (names : gset QueryPath) : M unit :=
  modify_query (fun q => match annotation_select_mask q with
                         | None => q
                         | Some m => with_mask q (Some (m ∪ names))
                         end).

(** The annotation mask the mixin captures:
    [set(self.annotations if self.annotation_select_mask is None else
    self.annotation_select_mask)]. *)
Definition current_mask (q : Query) : gset QueryPath :=
  match annotation_select_mask q with
  | None => dom (annotations q)
  | Some m => m
  end.

(* ------------------------------------------------------------------ *)
(** ** The query mixin *)

Section QueryMixin.
Context (env : Env).

(** [try: ... finally: self._queryable_property_stack.pop()], for a block
    whose normal exit keeps the stack ([on_error_pop]) or pops it
    ([finally_pop]). *)
Definition on_error_pop {A} (m : M A) : M A :=
  fun s => match m s with
           | ROk x s' => ROk x s'
           | RErr e s' => match pop_stack s' with
                          | ROk _ s'' => RErr e s''
                          | RErr e' s'' => RErr e' s''
                          | RFuel => RFuel
                          end
           | RFuel => RFuel
           end.

Definition finally_pop {A} (m : M A) : M A :=
  fun s => match m s with
           | ROk x s' => match pop_stack s' with
                         | ROk _ s'' => ROk x s''
                         | RErr e' s'' => RErr e' s''
                         | RFuel => RFuel
                         end
           | RErr e s' => match pop_stack s' with
                          | ROk _ s'' => RErr e s''
                          | RErr e' s'' => RErr e' s''
                          | RFuel => RFuel
                          end
           | RFuel => RFuel
           end.

(** Old versions' [self.add_fields([f.attname for f in concrete_fields],
    False)]: the fields join the selected columns. *)
Definition add_fields (fields : list QueryPath) : M unit :=
  modify_query (fun q => with_select q (select q ++ fields)).

(** The code of [_add_queryable_property_annotation] after the [try]
    block: the GROUP BY setup for aggregate-based annotations. *)
Definition group_by_setup (annotation : Expr) (full_group_by : bool) : M unit :=
  if contains_aggregate annotation then
    if full_group_by && negb (annotation_to_aggregate_map env) then
      modify_query (fun q => with_group_by q GBAll)
    else
      mlet _ := (fun s => if full_group_by && bool_decide (group_by (query s) = GBNone)
                          then add_fields (concrete_fields env) s else ret tt s) in
      modify_query (fun q => with_group_by q GBComputed)
  else ret tt.

(** The context manager [_add_queryable_property_annotation] used in a
    [with] statement: [enter] is the code up to the [yield] (it returns the
    yielded annotation with the reference still on the stack), [body] the
    block of the [with] statement. *)
Definition with_property_annotation {A} (enter : M Expr) (full_group_by : bool)
    (body : Expr -> M A) : M A :=
  mlet annotation := enter in
  mlet x := finally_pop (body annotation) in
  mlet _ := group_by_setup annotation full_group_by in
  ret x.

(** Django's [add_annotation(annotation, alias)] (1.8 and later):
    resolve the expression against this query, append the alias to the
    mask, store the resolved expression. *)
Definition add_annotation (resolve_expr : Expr -> M Expr) (e : Expr)
    (alias : QueryPath) : M unit :=
  mlet resolved := resolve_expr e in
  mlet _ := append_annotation_mask {[alias]} in
  modify_query (fun q => with_annotations q (<[alias := resolved]> (annotations q))).

(** [self.annotations[annotation_name]]. *)
Definition lookup_annotation (alias : QueryPath) : M Expr :=
  fun s => match annotations (query s) !! alias with
           | Some e => ROk e s
           | None => RErr KeyError s
           end.

(** The overridden [names_to_path]: the relation path of the top of the
    stack is prepended before Django resolves the names. *)
Definition names_to_path (names : QueryPath) : M QueryPath :=
  fun s =>
    let names' := match stack_top (query s) with
                   | Some top => relation_path top ++ names
                   | None => names
                   end in
    match base_names_to_path env names' with
    | Some p => ROk p s
    | None => RErr FieldError s
    end.

(** Django's [resolve_ref]: annotations by name, otherwise a column found
    through [setup_joins], which calls the overridden [names_to_path]. *)
Definition base_resolve_ref (name : QueryPath) (summarize : bool) : M Expr :=
  fun s => match annotations (query s) !! name with
           | Some a => ROk (if summarize then ERef name a else a) s
           | None => (mlet p := names_to_path name in ret (ECol p)) s
           end.

(** [full_group_by = bool(ANNOTATION_TO_AGGREGATE_ATTRIBUTES_MAP) and not
    self.select]. *)
Definition default_full_group_by (q : Query) : bool :=
  annotation_to_aggregate_map env && bool_decide (select q = []).

(** The mutually recursive methods.  [fuel] bounds the depth of the Python
    call stack; [RFuel] stands for a recursion that does not end. *)

(** [_add_queryable_property_annotation] up to its [yield]. *)
Fixpoint annotate_enter (fuel : nat) (r : PropertyReference) (sel : bool) : M Expr :=
  match fuel with
  | O => fun _ => RFuel
  | S f => fun s =>
    if bool_decide (r ∈ qp_stack (query s)) then RErr (CircularDependency r) s
    else
      let annotation_name := full_path r in
      let annotation_mask := current_mask (query s) in
      (mlet _ := push_stack r in
       on_error_pop
         (mlet _ := (fun s1 =>
             if bool_decide (r ∉ set_at (heap s1) (qp_annotations (query s1))) then
               match get_annotation env r with
               | None => RErr QueryablePropertyError s1
               | Some e =>
                   (mlet _ := add_annotation (fun x => resolve_expression f x false)
                                             e annotation_name in
                    mlet _ := (if sel then ret tt else set_annotation_mask annotation_mask) in
                    qp_annotations_add r) s1
               end
             else if sel && bool_decide (annotation_select_mask (query s1) <> None) then
               set_annotation_mask (annotation_mask ∪ {[annotation_name]}) s1
             else ROk tt s1) in
          lookup_annotation annotation_name)) s
  end

(** [expression.resolve_expression(query, summarize=...)]: [F] objects
    call [query.resolve_ref]. *)
with resolve_expression (fuel : nat) (e : Expr) (summarize : bool) : M Expr :=
  match fuel with
  | O => fun _ => RFuel
  | S f =>
    match e with
    | EF name => resolve_ref f name summarize
    | EAgg src => mlet src' := resolve_expression f src summarize in ret (EAgg src')
    | EFunc args =>
        mlet args' := mapM_M (fun x => resolve_expression f x summarize) args in
        ret (EFunc args')
    | EValue _ | ECol _ | ERef _ _ => ret e
    end
  end

(** The overridden [resolve_ref]. *)
with resolve_ref (fuel : nat) (name : QueryPath) (summarize : bool) : M Expr :=
  match fuel with
  | O => fun _ => RFuel
  | S f => fun s =>
    let query_path := match stack_top (query s) with
                      | Some top => relation_path top ++ name
                      | None => name
                      end in
    (mlet property_annotation :=
       auto_annotate f query_path (Some (values_queryset_exists env)) in
     match property_annotation with
     | Some a => ret (if summarize then ERef name a else a)
     | None => base_resolve_ref name summarize
     end) s
  end

(** [_auto_annotate]. *)
with auto_annotate (fuel : nat) (query_path : QueryPath) (full_group_by : option bool)
    : M (option Expr) :=
  match fuel with
  | O => fun _ => RFuel
  | S f => fun s =>
    match resolve env query_path with
    | None => ROk None s
    | Some (r, _) =>
        let fgb := match full_group_by with
                   | Some b => b
                   | None => default_full_group_by (query s)
                   end in
        (mlet a := with_property_annotation (annotate_enter f r false) fgb ret in
         ret (Some a)) s
    end
  end.

(** The overridden [build_filter]. *)
Fixpoint build_filter (fuel : nat) (filter_expr : PyVal) : M Where :=
  match fuel with
  | O => fun _ => RFuel
  | S f => fun s =>
    let base := match base_build_filter env (query s) filter_expr with
                | Some w => ROk w s
                | None => RErr FieldError s
                end in
    match unpack2 filter_expr with
    | UnpackTypeError | UnpackValueError => base
    | Unpacked arg value =>
      match query_path_of arg with
      | None => RErr TypeError s
      | Some qp =>
        match resolve env qp with
        | None => base
        | Some (r, lookups) =>
          if bool_decide (stack_top (query s) = Some r) then base
          else
            match get_filter env r lookups value with
            | None => RErr QueryablePropertyError s
            | Some q_obj =>
                if filter_requires_annotation env r then
                  with_property_annotation (annotate_enter f r false)
                    (default_full_group_by (query s)) (fun _ => add_q f q_obj) s
                else add_q f q_obj s
            end
        end
      end
    end
  end

(** Django's [_add_q]: every leaf goes through [self.build_filter]; nested
    [Q] nodes are added recursively. *)
with add_q (fuel : nat) (q : Q) : M Where :=
  match fuel with
  | O => fun _ => RFuel
  | S f =>
    match q with
    | QLeaf child => build_filter f child
    | QNode conn negated children =>
        mlet ws := mapM_M (add_q f) children in ret (WNode conn negated ws)
    end
  end.

End QueryMixin.

(* ------------------------------------------------------------------ *)
(** ** Compilation and result marking *)

Definition QUERYING_PROPERTIES_MARKER : string := "__querying_properties__".

(** A compiler; [marker_hook] records whether
    [QueryablePropertiesCompilerMixin] was injected into it. *)
Record Compiler := mkCompiler {
  marker_hook : bool;
  compiled_query : Query;
}.

(** The overridden [get_compiler]: the flag is read, reset, and decides the
    injection of the compiler mixin. *)
Definition get_compiler (q : Query) : Compiler * Query :=
  let use := use_marker q in
  let q' := with_marker q false in
  (mkCompiler use q', q').

(** [OrderedDict.update]: existing keys keep their position and take the
    new value, new keys are appended. *)
Fixpoint od_set (d : list (string * Z)) (k : string) (v : Z) : list (string * Z) :=
  match d with
  | [] => [(k, v)]
  | (k', v') :: rest => if String.eqb k k' then (k, v) :: rest else (k', v') :: od_set rest k v
  end.

Definition od_update (d : list (string * Z)) (other : list (string * Z)) : list (string * Z) :=
  fold_left (fun acc kv => od_set acc kv.1 kv.2) other d.

(** [setup_query] of the compiler: [annotation_col_map] as built by
    Django, with the marker entry [-1] put first by the mixin. *)
Definition setup_query (c : Compiler) (base_annotation_col_map : list (string * Z))
    : list (string * Z) :=
  if marker_hook c then od_update [(QUERYING_PROPERTIES_MARKER, (-1)%Z)] base_annotation_col_map
  else base_annotation_col_map.

(** Python's normalisation of a slice bound [i] for a sequence of
    length [n]. *)
Definition slice_bound (i : Z) (n : nat) : nat :=
  if (i <? 0)%Z then Z.to_nat (Z.max 0 (Z.of_nat n + i)) else Z.to_nat (Z.min i (Z.of_nat n)).

(** The row transformation of [results_iter]: appended on recent
    versions, inserted before the aggregates and related columns on old
    ones ([legacy] is [bool(ANNOTATION_TO_AGGREGATE_ATTRIBUTES_MAP)]). *)
Definition mark_row (legacy : bool) (n_aggregate_select n_related_select_cols : nat)
    (row : list PyVal) : list PyVal :=
  let addition := [PBool true] in
  if negb legacy then row ++ addition
  else
    let index := (Z.of_nat (length row) - Z.of_nat n_aggregate_select
                  - Z.of_nat n_related_select_cols)%Z in
    let k := slice_bound index (length row) in
    take k row ++ addition ++ drop k row.

(** [results_iter] of a compiler, over the rows of the base
    implementation. *)
Definition results_iter (c : Compiler) (legacy : bool) (n_aggregate_select n_related_select_cols : nat)
    (rows : list (list PyVal)) : list (list PyVal) :=
  if marker_hook c then map (mark_row legacy n_aggregate_select n_related_select_cols) rows
  else rows.

(** Raw queries: [__iter__] and [get_columns] put the marker first. *)
Definition raw_iter (q : Query) (rows : list (list PyVal)) : list (list PyVal) :=
  map (fun row => if use_marker q then PBool true :: row else row) rows.

Definition get_columns (q : Query) (columns : list string) : list string :=
  if use_marker q then QUERYING_PROPERTIES_MARKER :: columns else columns.

(* ------------------------------------------------------------------ *)
(** ** Bulk updates *)

(** Modelled from the spec: column values of an UPDATE, compared with
    Python's [==] ([True == 1]). *)
Inductive ColValue := CNone | CBool (b : bool) | CInt (z : Z) | CStr (s : string).

Definition col_eqb (v w : ColValue) : bool :=
  match v, w with
  | CNone, CNone => true
  | CBool a, CBool b => Bool.eqb a b
  | CInt a, CInt b => Z.eqb a b
  | CBool a, CInt b | CInt b, CBool a => Z.eqb (Z.b2z a) b
  | CStr a, CStr b => String.eqb a b
  | _, _ => false
  end.

(** Modelled from the spec: what the model's namespace says about a
    keyword name: a concrete
    column, a queryable property without an updater, or a property with
    its [get_update_kwargs]. *)
Inductive UpdateTarget :=
| Column
| PropertyWithoutUpdater
| PropertyWithUpdater (get_update_kwargs : ColValue -> list (string * ColValue)).

Definition Row := gmap string ColValue.

(** Modelled from the spec: the Bulk-Update Coordinator
    ([build_update_kwargs] and [update] of the manager layer, which is not
    part of the embedded source).  Each keyword is resolved to concrete
    column assignments (a property through its update-kwargs builder, whose
    result may itself name properties), the mappings are merged in order,
    a column assigned two different values fails, a property without an
    updater fails. *)
Definition merge_assignments (acc m : Row) : option Row :=
  if existsb (fun kv => match acc !! kv.1 with
                        | Some v => negb (col_eqb v kv.2)
                        | None => false
                        end) (map_to_list m)
  then None else Some (acc ∪ m).

Inductive UpdateError := UpdateConflict | UpdateMissingUpdater | UpdateFuel.

(** Modelled from the spec: one keyword argument of [update] resolved to
    its column assignments; [fuel] bounds the nesting of update-kwargs
    builders. *)
Fixpoint resolve_update_kwarg (target : string -> UpdateTarget) (fuel : nat)
    (name : string) (value : ColValue) : UpdateError + Row :=
  match fuel with
  | O => inl UpdateFuel
  | S f =>
    match target name with
    | Column => inr {[name := value]}
    | PropertyWithoutUpdater => inl UpdateMissingUpdater
    | PropertyWithUpdater g =>
        fold_left (fun acc kv =>
                     match acc with
                     | inl e => inl e
                     | inr a =>
                         match resolve_update_kwarg target f kv.1 kv.2 with
                         | inl e => inl e
                         | inr m => match merge_assignments a m with
                                    | Some a' => inr a'
                                    | None => inl UpdateConflict
                                    end
                         end
                     end) (g value) (inr ∅)
    end
  end.

(** Modelled from the spec: the merge of the resolved sources, in order. *)
Fixpoint merge_sources (acc : Row) (sources : list Row) : UpdateError + Row :=
  match sources with
  | [] => inr acc
  | m :: rest => match merge_assignments acc m with
                 | Some acc' => merge_sources acc' rest
                 | None => inl UpdateConflict
                 end
  end.

(** Modelled from the spec: every keyword argument resolved, in order. *)
Definition resolve_sources (target : string -> UpdateTarget) (fuel : nat)
    (kwargs : list (string * ColValue)) : UpdateError + list Row :=
  fold_right (fun kv acc =>
                match resolve_update_kwarg target fuel kv.1 kv.2, acc with
                | inl e, _ => inl e
                | inr m, inl e => inl e
                | inr m, inr ms => inr (m :: ms)
                end) (inr []) kwargs.

(** Modelled from the spec: all keyword arguments resolved, then merged. *)
Definition build_update_kwargs (target : string -> UpdateTarget) (fuel : nat)
    (kwargs : list (string * ColValue)) : UpdateError + Row :=
  match resolve_sources target fuel kwargs with
  | inl e => inl e
  | inr ms => merge_sources ∅ ms
  end.

(** Modelled from the spec: the outcome of an update:
    the UPDATE statements issued (their column sets), the table after
    them, and the error raised if any. *)
Record UpdateOutcome := mkUpdateOutcome {
  issued : list Row;
  table_after : list Row;
  update_error : option UpdateError;
}.

(** Modelled from the spec: the native UPDATE of the selected rows. *)
Definition native_update (selected : Row -> bool) (assignments : Row) (table : list Row) : list Row :=
  map (fun row => if selected row then assignments ∪ row else row) table.

(** Modelled from the spec: [update] of a queryset with the bulk-update
    coordinator; the UPDATE is issued only once the assignments are
    built. *)
Definition queryset_update (target : string -> UpdateTarget) (fuel : nat)
    (selected : Row -> bool) (table : list Row) (kwargs : list (string * ColValue)) : UpdateOutcome :=
  match build_update_kwargs target fuel kwargs with
  | inl e => mkUpdateOutcome [] table (Some e)
  | inr assignments =>
      mkUpdateOutcome [assignments] (native_update selected assignments table) None
  end.

(* ------------------------------------------------------------------ *)
(** ** A concrete configuration *)

(** The models of the test suite, seen from [Version]: the fields
    [major], [minor], [patch] and the foreign key [application]; the
    queryable properties [major_minor], [version], [circular] (an
    annotation that refers to itself) and [self_filter] (a filter that
    refers to itself) on [Version], [version_count] (an aggregate that
    requires its annotation for filtering) and [has_versions] on
    [Application]. *)
Definition version_properties : list string :=
  ["major_minor"; "version"; "circular"; "self_filter"].

Definition application_properties : list string := ["version_count"; "has_versions"].

Definition demo_fields : list QueryPath :=
  [["major"]; ["minor"]; ["patch"]; ["application"]; ["application"; "name"];
   ["application"; "versions"]].

Definition demo_lookups (rest : QueryPath) : QueryPath :=
  match rest with [] => ["exact"] | _ => rest end.

Definition demo_resolve (p : QueryPath) : option (PropertyReference * QueryPath) :=
  match p with
  | "application" :: n :: rest =>
      if bool_decide (n ∈ application_properties)
      then Some (mkRef n ["application"], demo_lookups rest) else None
  | n :: rest =>
      if bool_decide (n ∈ version_properties)
      then Some (mkRef n [], demo_lookups rest) else None
  | [] => None
  end.

Definition demo_get_annotation (r : PropertyReference) : option Expr :=
  match prop_name r with
  | "version" => Some (EFunc [EF ["major"]; EF ["minor"]; EF ["patch"]])
  | "version_count" => Some (EAgg (EF ["versions"]))
  | "circular" => Some (EF ["circular"])
  | _ => None
  end.

(** A filter condition on the full path of a reference: the reference
    returns it relative to the root model. *)
Definition path_condition (r : PropertyReference) (lookups : QueryPath) (value : PyVal) : Q :=
  QLeaf (PTuple [PTuple (map PStr (full_path r ++ lookups)); value]).

Definition demo_get_filter (r : PropertyReference) (lookups : QueryPath) (value : PyVal)
    : option Q :=
  match prop_name r with
  | "major_minor" =>
      Some (QNode AND false [QLeaf (PTuple [PStr "major"; value]);
                             QLeaf (PTuple [PStr "minor"; value])])
  | "version" =>
      Some (QNode AND false [QLeaf (PTuple [PStr "major_minor"; value]);
                             QLeaf (PTuple [PStr "patch"; value])])
  | "version_count" | "self_filter" => Some (path_condition r lookups value)
  | _ => None
  end.

Definition demo_is_field (p : QueryPath) : bool :=
  bool_decide (p ∈ demo_fields) || bool_decide (p <> [] /\ removelast p ∈ demo_fields).

Definition prefixed (q : Query) (names : QueryPath) : QueryPath :=
  match stack_top q with Some top => relation_path top ++ names | None => names end.

(** Django's [refs_expression]: a leading part of the path names an
    annotation. *)
Definition refs_annotation (q : Query) (p : QueryPath) : bool :=
  existsb (fun n => bool_decide (take n p ∈ dom (annotations q))) (seq 1 (length p)).

(** Django's [build_filter] on these models: a reference to an annotation,
    or a path that, prefixed by the overridden [names_to_path], is a field
    or a field with a lookup. *)
Definition demo_base_build_filter (q : Query) (e : PyVal) : option Where :=
  match unpack2 e with
  | Unpacked arg _ =>
      match query_path_of arg with
      | Some p => if refs_annotation q p || demo_is_field (prefixed q p)
                  then Some (WNative e) else None
      | None => None
      end
  | _ => None
  end.

Definition demo_env : Env :=
  mkEnv MChain false false demo_resolve demo_get_annotation demo_get_filter
    (fun r => bool_decide (prop_name r = "version_count"))
    (fun p => if demo_is_field p then Some p else None)
    demo_base_build_filter [["major"]; ["minor"]; ["patch"]; ["application"]].

Definition demo_query : Query := mkQuery ∅ None GBNone [] 1%positive [] false.

Definition demo_heap : Heap := {[1%positive := ∅]}.

Definition demo_state : St := mkSt demo_heap demo_query.

(** A query whose marker flag was set by a [select_properties]-like call. *)
Definition marked_query : Query := with_marker demo_query true.

(** A state in the middle of the filter of [has_versions], reached through
    the relation [application]. *)
Definition related_state : St :=
  mkSt demo_heap (with_stack demo_query [mkRef "has_versions" ["application"]]).

(* ------------------------------------------------------------------ *)
(** ** Properties of cloning *)

(** What a post-processed copy [c] (in store [h']) of [self] (in store [h])
    looks like. *)
Definition copied_state (h : Heap) (self : Query) (h' : Heap) (c : Query) : Prop :=
  qp_annotations c <> qp_annotations self /\
  set_at h' (qp_annotations c) = set_at h (qp_annotations self) /\
  set_at h' (qp_annotations self) = set_at h (qp_annotations self) /\
  (forall r, set_at (set_add h' (qp_annotations c) r) (qp_annotations self)
             = set_at h' (qp_annotations self)) /\
  (forall r, set_at (set_add h' (qp_annotations self) r) (qp_annotations c)
             = set_at h' (qp_annotations c)) /\
  qp_stack c = [] /\
  use_marker c = false.

(** The condition of [self_filter] on [exact] [1], as its reference
    returns it. *)
Definition self_filter_condition : PyVal :=
  PTuple [PTuple [PStr "self_filter"; PStr "exact"]; PInt 1].

(** A state inside the filter of [version_count], reached through
    [application]: the reference is on top of the stack and its annotation
    is registered, not selected. *)
Definition guarded_state : St :=
  mkSt demo_heap
    (mkQuery {[["application"; "version_count"] := EAgg (ECol ["application"; "versions"])]}
             (Some ∅) GBComputed [] 1%positive [mkRef "version_count" ["application"]] false).

(** Two assignment maps assign equal values to every column they share. *)
Definition compatible (acc m : Row) : Prop :=
  forall c u w, acc !! c = Some u -> m !! c = Some w -> col_eqb u w = true.

(** An update target for the bulk-update examples: [version] has an
    updater writing [major] and [minor], [release] one writing the property
    [version] and the column [patch], [major_minor] has no updater. *)
Definition demo_update_target (name : string) : UpdateTarget :=
  match name with
  | "version" => PropertyWithUpdater (fun v => [("major", v); ("minor", CInt 0)])
  | "release" => PropertyWithUpdater (fun v => [("version", v); ("patch", CInt 0)])
  | "major_minor" => PropertyWithoutUpdater
  | _ => Column
  end.

(** A row of the version table. *)
Definition demo_row : Row := {[ "major" := CInt 1; "minor" := CInt 2; "patch" := CInt 3 ]}.

(** Every pair of assignment maps agrees, by Python equality, on every
    column both assign. *)
Definition sources_agree (ms : list Row) : bool :=
  forallb (fun m1 => forallb (fun m2 =>
    forallb (fun kv => match m2 !! kv.1 with Some w => col_eqb kv.2 w | None => true end)
            (map_to_list m1)) ms) ms.

(* ------------------------------------------------------------------ *)
(** ** Ordering, aggregation and the aggregate selection *)

Section MoreMixin.
Context (env : Env).

(** The path [add_ordering] auto-annotates for one item of [ordering]:
    strings other than ['?'], with one leading ['-'] removed, split into a
    [QueryPath]; other items are not looked at. *)
Definition ordering_path (field_name : PyVal) : option QueryPath :=
  match field_name with
  | PStr s =>
      if String.eqb s "?" then None
      else Some (split_lookup (match s with
                               | String "-"%char rest => rest
                               | _ => s
                               end))
  | _ => None
  end.

(** The loop of the overridden [add_ordering]. *)
Fixpoint annotate_orderings (fuel : nat) (ordering : list PyVal) : M unit :=
  match ordering with
  | [] => ret tt
  | field_name :: rest =>
      mlet _ := match ordering_path field_name with
                | Some p => mlet _ := auto_annotate env fuel p None in ret tt
                | None => ret tt
                end in
      annotate_orderings fuel rest
  end.

(** The overridden [add_ordering]; Django's [add_ordering]
    ([base_add_ordering]) validates the names ([false]: [FieldError]); the
    ordering it records is not part of the modelled query state. *)
Definition add_ordering (base_add_ordering : Query -> list PyVal -> bool)
    (fuel : nat) (ordering : list PyVal) : M unit :=
  mlet _ := annotate_orderings fuel ordering in
  fun s => if base_add_ordering (query s) ordering then ROk tt s else RErr FieldError s.




End MoreMixin.

(** [OrderedDict.__setitem__] for any value type. *)
Fixpoint od_assign {V} (d : list (string * V)) (k : string) (v : V) : list (string * V) :=
  match d with
  | [] => [(k, v)]
  | (k', v') :: rest => if String.eqb k k' then (k, v) :: rest else (k', v') :: od_assign rest k v
  end.

(** The overridden [aggregate_select] property of old versions, over the
    [OrderedDict] Django returns ([original]); the marker's value is
    [None]. *)
Definition aggregate_select (q : Query) (original : list (string * option Expr))
    : list (string * option Expr) :=
  if use_marker q then
    fold_left (fun acc kv => od_assign acc kv.1 kv.2) original [(QUERYING_PROPERTIES_MARKER, None)]
  else original.

(* ------------------------------------------------------------------ *)
(** ** Injected classes *)

(** The classes known to the program: their [__name__], and the cache
    [InjectableMixin._created_classes] of the classes made by
    [mix_with_class], keyed by base class, mixin class and name. *)
Record ClassStore := mkClassStore {
  class_names : gmap positive string;
  created_classes : gmap (positive * positive * string) positive;
}.

(** [str(class_name or base_class.__name__)]. *)
Definition mixed_class_name (cs : ClassStore) (base_class : positive) (class_name : option string)
    : string :=
  let base_name := default EmptyString (class_names cs !! base_class) in
  match class_name with
  | Some n => if String.eqb n EmptyString then base_name else n
  | None => base_name
  end.

(** [InjectableMixin.mix_with_class]: the cached class for the key, or a
    new class ([type(class_name, (cls, base_class), ...)]) stored in the
    cache. *)
Definition mix_with_class (cs : ClassStore) (cls base_class : positive) (class_name : option string)
    : positive * ClassStore :=
  let name := mixed_class_name cs base_class class_name in
  let cache_key := (base_class, cls, name) in
  match created_classes cs !! cache_key with
  | Some c => (c, cs)
  | None =>
      let c := fresh (dom (class_names cs)) in
      (c, mkClassStore (<[c := name]> (class_names cs)) (<[cache_key := c]> (created_classes cs)))
  end.

(** Every class in the cache is known and named by its key, and no class
    is cached under two keys. *)
Definition cache_ok (cs : ClassStore) : Prop :=
  (forall k c, created_classes cs !! k = Some c -> class_names cs !! c = Some k.2) /\
  (forall k1 k2 c, created_classes cs !! k1 = Some c -> created_classes cs !! k2 = Some c -> k1 = k2).

(* ------------------------------------------------------------------ *)
(** ** State invariants of the mixin's methods *)

(** What every method of the mixin keeps: the set object of the query, the
    marker flag, the annotations already registered and the references in
    the set. *)
Record Grows (s s' : St) : Prop := mkGrows {
  grows_loc : qp_annotations (query s') = qp_annotations (query s);
  grows_marker : use_marker (query s') = use_marker (query s);
  grows_dom : dom (annotations (query s)) ⊆ dom (annotations (query s'));
  grows_set : set_at (heap s) (qp_annotations (query s))
              ⊆ set_at (heap s') (qp_annotations (query s));
}.

(** A method call that returns or raises leaves the stack as it found it. *)
Definition Inv (s s' : St) : Prop :=
  Grows s s' /\ qp_stack (query s') = qp_stack (query s).

(** A call that returns also leaves the selected annotations as they were. *)
Definition InvOk (s s' : St) : Prop :=
  Inv s s' /\ current_mask (query s') = current_mask (query s).

Definition post {A} (Rok Rerr : St -> St -> Prop) (s : St) (r : Res A) : Prop :=
  match r with
  | ROk _ s' => Rok s s'
  | RErr _ s' => Rerr s s'
  | RFuel => True
  end.

Definition sat {A} (m : M A) : Prop := forall s, post InvOk Inv s (m s).

(** What [_add_queryable_property_annotation] has done when it reaches its
    [yield]: the reference was not on the stack and now is on top, it is in
    the set, and the yielded expression is the one registered under its
    alias. *)
Definition enter_post (r : PropertyReference) (sel : bool) (s : St) (res : Res Expr) : Prop :=
  match res with
  | ROk a s' =>
      Grows s s' /\ qp_stack (query s') = qp_stack (query s) ++ [r] /\
      (r ∉ qp_stack (query s)) /\
      (r ∈ set_at (heap s') (qp_annotations (query s'))) /\
      annotations (query s') !! full_path r = Some a /\
      (sel = false -> current_mask (query s') = current_mask (query s))
  | RErr _ s' => Inv s s'
  | RFuel => True
  end.

(** The stack of the state a call returns or raises with has no
    reference twice. *)
Definition nodup_after {A} (res : Res A) : Prop :=
  match res with
  | ROk _ s' | RErr _ s' => NoDup (qp_stack (query s'))
  | RFuel => True
  end.

(** [r] is in the set of annotated properties, not being annotated, and
    its alias holds [e]. *)
Definition registered_with (r : PropertyReference) (e : Expr) (s : St) : Prop :=
  r ∈ set_at (heap s) (qp_annotations (query s)) /\
  (r ∉ qp_stack (query s)) /\
  annotations (query s) !! full_path r = Some e.

(* ================================================================== *)
(** * Proofs *)

Lemma set_at_insert_ne (h : Heap) (l l' : loc) (x : gset PropertyReference) :
  l <> l' -> set_at (<[l := x]> h) l' = set_at h l'.
Proof. intros Hne. unfold set_at. by rewrite lookup_insert_ne. Qed.

Lemma set_at_insert_eq (h : Heap) (l : loc) (x : gset PropertyReference) :
  set_at (<[l := x]> h) l = x.
Proof. unfold set_at. by rewrite lookup_insert_eq. Qed.

Lemma set_add_other (h : Heap) (l l' : loc) (r : PropertyReference) :
  l <> l' -> set_at (set_add h l r) l' = set_at h l'.
Proof. apply set_at_insert_ne. Qed.

Lemma fresh_not_in_dom (h : Heap) (l : loc) :
  is_Some (h !! l) -> fresh (dom h) <> l.
Proof.
  intros Hl Heq. apply (is_fresh (dom h)). rewrite Heq. by apply elem_of_dom.
Qed.

Lemma postprocess_clone_state (h : Heap) (self clone : Query) :
  is_Some (h !! qp_annotations self) ->
  let '(h', c) := postprocess_clone h self clone in copied_state h self h' c.
Proof.
  intros Hsome. unfold postprocess_clone, init_injected_attrs, alloc_set. simpl.
  set (l1 := fresh (dom h)).
  set (h1 := <[l1 := (∅ : gset PropertyReference)]> h).
  set (l2 := fresh (dom h1)).
  set (h2 := <[l2 := (∅ : gset PropertyReference)]> h1).
  set (l := qp_annotations self).
  assert (H1 : l1 <> l) by (apply fresh_not_in_dom; exact Hsome).
  assert (Hsome1 : is_Some (h1 !! l)) by (unfold h1; by rewrite lookup_insert_ne).
  assert (H2 : l2 <> l) by (apply fresh_not_in_dom; exact Hsome1).
  assert (Hl : set_at h2 l = set_at h l).
  { unfold h2, h1. rewrite !set_at_insert_ne; auto. }
  unfold copied_state, set_update; simpl.
  split; [exact H2|].
  split. { rewrite set_at_insert_eq. unfold h2 at 1. rewrite set_at_insert_eq, Hl. set_solver. }
  split. { rewrite set_at_insert_ne; auto. }
  split. { intros r. apply set_add_other. exact H2. }
  split. { intros r. apply set_add_other. auto. }
  auto.
Qed.

(** The chaining entry point: [chain] where it exists, [clone] otherwise. *)
Lemma chain_postprocesses (env : Env) (h : Heap) (self : Query) :
  query_chain_method env = MChain ->
  chain env h self = Some (postprocess_clone h self self) /\ clone env h self = (h, self).
Proof. intros Hm. unfold chain, clone, base_clone. by rewrite Hm. Qed.

Lemma clone_postprocesses (env : Env) (h : Heap) (self : Query) :
  query_chain_method env = MClone ->
  clone env h self = postprocess_clone h self self.
Proof. intros Hm. unfold clone, base_clone. by rewrite Hm. Qed.

(** C1 (counterexample): a chained copy of a query whose marker flag is set
    has the flag off; the flag is not carried over to the copy. *)
Lemma chain_resets_marker_cex :
  use_marker marked_query = true /\
  option_map (fun hc => use_marker hc.2) (chain demo_env demo_heap marked_query) = Some false.
Proof. split; reflexivity. Qed.

(** C1 (amended): the copy made by the chaining entry point ([chain] where
    it is the chaining method, [clone] otherwise) has its own set object
    with the same references (adding to either set leaves the other
    unchanged), an empty stack and the marker flag off whatever the
    source's flag; on versions with [chain], a bare [clone] is the
    framework's copy, which still shares the set object. *)
Theorem chaining_copies_property_state (env : Env) (h : Heap) (self : Query) :
  is_Some (h !! qp_annotations self) ->
  match query_chain_method env with
  | MChain =>
      (exists h' c, chain env h self = Some (h', c) /\ copied_state h self h' c) /\
      clone env h self = (h, self)
  | MClone => let '(h', c) := clone env h self in copied_state h self h' c
  end.
Proof.
  intros Hsome. destruct (query_chain_method env) eqn:Hm.
  - rewrite clone_postprocesses by exact Hm. by apply postprocess_clone_state.
  - destruct (chain_postprocesses env h self Hm) as [Hc Hb]. split; [|exact Hb].
    pose proof (postprocess_clone_state h self self Hsome) as Hp.
    destruct (postprocess_clone h self self) as [h' c] eqn:Hpc.
    exists h', c. split; [exact Hc | exact Hp].
Qed.

(** A witness for C1: chaining the marked query of the concrete
    configuration. *)
Lemma chaining_copies_property_state_witness :
  is_Some (demo_heap !! qp_annotations marked_query) /\
  (exists h' c, chain demo_env demo_heap marked_query = Some (h', c) /\
                copied_state demo_heap marked_query h' c).
Proof.
  assert (H : is_Some (demo_heap !! qp_annotations marked_query)) by (eexists; reflexivity).
  split; [exact H|].
  exact (proj1 (chaining_copies_property_state demo_env demo_heap marked_query H)).
Defined.

(** C7: [get_compiler] attaches the hook exactly when the flag is set, and
    resets the flag; a later call attaches it only if the flag is set
    again. *)
Theorem get_compiler_consumes_marker (q : Query) :
  marker_hook (get_compiler q).1 = use_marker q /\
  use_marker (get_compiler q).2 = false /\
  (get_compiler q).2 = with_marker q false /\
  marker_hook (get_compiler (get_compiler q).2).1 = false /\
  (forall b, marker_hook (get_compiler (with_marker (get_compiler q).2 b)).1 = b).
Proof. repeat split. Qed.

(** C10: a filter expression that is not a pair is handed, unchanged, to
    the native [build_filter]; the state is untouched and the only error is
    the native one. *)
Theorem build_filter_not_a_pair (env : Env) (f : nat) (e : PyVal) (s : St) :
  unpack2 e = UnpackTypeError \/ unpack2 e = UnpackValueError ->
  build_filter env (S f) e s =
    match base_build_filter env (query s) e with
    | Some w => ROk w s
    | None => RErr FieldError s
    end.
Proof. intros [H | H]; simpl; by rewrite H. Qed.

(** A witness for C10: the integer [5] and a triple, given as filter
    expressions. *)
Lemma build_filter_not_a_pair_witness :
  build_filter demo_env 3 (PInt 5) demo_state = RErr FieldError demo_state /\
  build_filter demo_env 3 (PTuple [PStr "major"; PInt 1; PInt 2]) demo_state
    = RErr FieldError demo_state.
Proof.
  split.
  - rewrite (build_filter_not_a_pair demo_env 2 (PInt 5) demo_state); [reflexivity | left; reflexivity].
  - rewrite (build_filter_not_a_pair demo_env 2 _ demo_state); [reflexivity | right; reflexivity].
Defined.

Lemma od_set_new (d : list (string * Z)) (k : string) (v : Z) :
  k ∉ d.*1 -> od_set d k v = d ++ [(k, v)].
Proof.
  induction d as [|[k' v'] rest IH]; intros Hk; simpl; [reflexivity|].
  simpl in Hk. rewrite not_elem_of_cons in Hk. destruct Hk as [Hne Hk].
  destruct (String.eqb_spec k k') as [->|_]; [congruence|]. by rewrite IH.
Qed.

Lemma od_update_new (d other : list (string * Z)) :
  NoDup other.*1 -> (forall k, k ∈ other.*1 -> k ∉ d.*1) ->
  od_update d other = d ++ other.
Proof.
  revert d. induction other as [|[k v] rest IH]; intros d Hnd Hfresh.
  - by rewrite app_nil_r.
  - simpl in *. apply NoDup_cons in Hnd as [Hk Hnd].
    unfold od_update. simpl. rewrite od_set_new by (apply Hfresh; left).
    fold (od_update (d ++ [(k, v)]) rest). rewrite IH; [by rewrite <- app_assoc|exact Hnd|].
    intros k' Hk'. rewrite fmap_app. simpl. rewrite elem_of_app, list_elem_of_singleton.
    intros [Hin | ->]; [|contradiction]. apply (Hfresh k'); [right|]; assumption.
Qed.

Lemma mark_row_shape (legacy : bool) (na nr : nat) (row : list PyVal) :
  exists k, k <= length row /\
    mark_row legacy na nr row = take k row ++ PBool true :: drop k row /\
    (legacy = false -> k = length row) /\
    (legacy = true ->
       k = slice_bound (Z.of_nat (length row) - Z.of_nat na - Z.of_nat nr) (length row)).
Proof.
  unfold mark_row. destruct legacy; simpl.
  - set (i := (Z.of_nat (length row) - Z.of_nat na - Z.of_nat nr)%Z).
    exists (slice_bound i (length row)). repeat split; try done.
    unfold slice_bound. destruct (Z.ltb_spec i 0);
      apply Nat2Z.inj_le; rewrite Z2Nat.id by lia; lia.
  - exists (length row). repeat split; try done.
    by rewrite take_ge, drop_ge by lia.
Qed.

(** C6 (counterexample): on old versions (with the aggregate attribute
    map) the value is not appended: it goes before the aggregate columns. *)
Lemma legacy_marker_not_appended_cex :
  results_iter (mkCompiler true demo_query) true 1 0 [[PInt 1; PInt 2; PInt 3]]
    = [[PInt 1; PInt 2; PBool true; PInt 3]].
Proof. reflexivity. Qed.

(** C6 (amended): for a query with the marker flag set, the compiler
    carries the hook; every row keeps its values and order and gains
    exactly one [True], at the end on versions without the aggregate
    attribute map and before the aggregate and related columns on old
    versions; the number of rows is unchanged; raw queries put [True]
    first; the column-index map gets the marker entry [-1] first. *)
Theorem marker_rows (q : Query) (legacy : bool) (na nr : nat) :
  use_marker q = true ->
  marker_hook (get_compiler q).1 = true /\
  (forall rows, length (results_iter (get_compiler q).1 legacy na nr rows) = length rows) /\
  (forall rows, Forall2 (fun row row' =>
      exists k, k <= length row /\ row' = take k row ++ PBool true :: drop k row /\
        (legacy = false -> k = length row) /\
        (legacy = true ->
           k = slice_bound (Z.of_nat (length row) - Z.of_nat na - Z.of_nat nr) (length row)))
      rows (results_iter (get_compiler q).1 legacy na nr rows)) /\
  (forall rows, raw_iter q rows = map (fun row => PBool true :: row) rows) /\
  (forall columns, get_columns q columns = QUERYING_PROPERTIES_MARKER :: columns) /\
  (forall base, NoDup base.*1 -> QUERYING_PROPERTIES_MARKER ∉ base.*1 ->
     setup_query (get_compiler q).1 base = (QUERYING_PROPERTIES_MARKER, (-1)%Z) :: base).
Proof.
  intros Hm. unfold get_compiler, results_iter, setup_query, raw_iter, get_columns; simpl.
  rewrite Hm. split; [reflexivity|]. split; [intros; apply length_map|].
  split.
  { intros rows. induction rows as [|row rows IH]; simpl; constructor; [|exact IH].
    destruct (mark_row_shape legacy na nr row) as (k & Hk & Heq & H1 & H2).
    exists k. auto. }
  split; [reflexivity|]. split; [reflexivity|].
  intros base Hnd Hm'. apply od_update_new; [exact Hnd|].
  intros k Hk. simpl. rewrite list_elem_of_singleton. intros ->. contradiction.
Qed.

(** A witness for C6: the marked query, compiled on a recent version. *)
Lemma marker_rows_witness :
  use_marker marked_query = true /\
  results_iter (get_compiler marked_query).1 false 0 0 [[PInt 1]; [PInt 2]]
    = [[PInt 1; PBool true]; [PInt 2; PBool true]] /\
  setup_query (get_compiler marked_query).1 [("version", 0%Z)]
    = [(QUERYING_PROPERTIES_MARKER, (-1)%Z); ("version", 0%Z)].
Proof.
  assert (Hm : use_marker marked_query = true) by reflexivity.
  destruct (marker_rows marked_query false 0 0 Hm) as (_ & _ & _ & _ & _ & Hs).
  split; [exact Hm|]. split; [reflexivity|].
  apply Hs; [apply NoDup_singleton|].
  simpl. rewrite list_elem_of_singleton. discriminate.
Defined.

(* ------------------------------------------------------------------ *)
(** ** The state invariants *)

Lemma grows_refl (s : St) : Grows s s.
Proof. constructor; done. Qed.

Lemma grows_trans (s1 s2 s3 : St) : Grows s1 s2 -> Grows s2 s3 -> Grows s1 s3.
Proof.
  intros [H1 H2 H3 H4] [H1' H2' H3' H4']. constructor.
  - congruence.
  - congruence.
  - set_solver.
  - rewrite H1 in H4'. etransitivity; eassumption.
Qed.

Lemma inv_refl (s : St) : Inv s s.
Proof. split; [apply grows_refl | reflexivity]. Qed.

Lemma inv_trans (s1 s2 s3 : St) : Inv s1 s2 -> Inv s2 s3 -> Inv s1 s3.
Proof. intros [G1 E1] [G2 E2]. split; [eapply grows_trans; eauto | congruence]. Qed.

Lemma invok_refl (s : St) : InvOk s s.
Proof. split; [apply inv_refl | reflexivity]. Qed.

Lemma invok_trans (s1 s2 s3 : St) : InvOk s1 s2 -> InvOk s2 s3 -> InvOk s1 s3.
Proof. intros [I1 E1] [I2 E2]. split; [eapply inv_trans; eauto | congruence]. Qed.

Lemma invok_inv (s1 s2 : St) : InvOk s1 s2 -> Inv s1 s2.
Proof. by intros [I _]. Qed.

Create HintDb invariants.
#[local] Hint Resolve grows_refl inv_refl invok_refl invok_inv : invariants.

Lemma sat_ret {A} (a : A) : sat (ret a).
Proof. intros s. apply invok_refl. Qed.

Lemma sat_bind {A B} (m : M A) (k : A -> M B) :
  sat m -> (forall a, sat (k a)) -> sat (bind m k).
Proof.
  intros Hm Hk s. unfold bind. specialize (Hm s).
  destruct (m s) as [a s1|e s1|]; simpl in *; try done.
  specialize (Hk a s1). destruct (k a s1) as [b s2|e s2|]; simpl in *; try done.
  - eapply invok_trans; eauto.
  - eapply inv_trans; [apply invok_inv|]; eauto.
Qed.

Lemma sat_mapM {A B} (g : A -> M B) (l : list A) :
  (forall x, x ∈ l -> sat (g x)) -> sat (mapM_M g l).
Proof.
  induction l as [|x l IH]; intros Hg; simpl; [apply sat_ret|].
  apply sat_bind; [apply Hg; left|]. intros y.
  apply sat_bind; [apply IH; intros z Hz; apply Hg; by right|]. intros ys. apply sat_ret.
Qed.

(** A query update that touches none of the annotations, the mask, the
    stack, the set object or the flag. *)
Lemma sat_modify (g : Query -> Query) :
  (forall q, annotations (g q) = annotations q /\
             annotation_select_mask (g q) = annotation_select_mask q /\
             qp_stack (g q) = qp_stack q /\ qp_annotations (g q) = qp_annotations q /\
             use_marker (g q) = use_marker q) ->
  sat (modify_query g).
Proof.
  intros Hg s. unfold modify_query; simpl. destruct (Hg (query s)) as (Ha & Hm & Hs & Hl & Hu).
  split; [split; [constructor|]|]; simpl; rewrite ?Ha, ?Hl, ?Hu; try done.
  unfold current_mask. by rewrite Ha, Hm.
Qed.

Lemma group_by_setup_sat (env : Env) (a : Expr) (fgb : bool) : sat (group_by_setup env a fgb).
Proof.
  unfold group_by_setup. destruct (contains_aggregate a); [|apply sat_ret].
  destruct (fgb && negb (annotation_to_aggregate_map env)).
  - apply sat_modify. intros q. repeat split.
  - apply sat_bind; [|intros; apply sat_modify; intros q; repeat split].
    intros s. destruct (fgb && bool_decide (group_by (query s) = GBNone)).
    + apply (sat_modify (fun q => with_select q (select q ++ concrete_fields env))).
      intros q. repeat split.
    + apply sat_ret.
Qed.

Lemma pop_pushed (s : St) (l : list PropertyReference) (r : PropertyReference) :
  qp_stack (query s) = l ++ [r] ->
  pop_stack s = ROk tt (mkSt (heap s) (with_stack (query s) l)).
Proof.
  intros H. unfold pop_stack. rewrite H.
  destruct (l ++ [r]) as [|x xs] eqn:E; [by destruct l|]. by rewrite <- E, removelast_last.
Qed.

Lemma grows_with_stack (s : St) (l : list PropertyReference) :
  Grows s (mkSt (heap s) (with_stack (query s) l)).
Proof. by constructor. Qed.

Lemma current_mask_with_stack (q : Query) (l : list PropertyReference) :
  current_mask (with_stack q l) = current_mask q.
Proof. reflexivity. Qed.

Lemma with_property_annotation_sat (env : Env) (enter : M Expr) (fgb : bool)
    {A} (body : Expr -> M A) (r : PropertyReference) :
  (forall s, enter_post r false s (enter s)) -> (forall a, sat (body a)) ->
  sat (with_property_annotation env enter fgb body).
Proof.
  intros He Hb s. unfold with_property_annotation, bind.
  specialize (He s). destruct (enter s) as [a s1|e s1|]; simpl in *; [|exact He|done].
  destruct He as (G1 & S1 & _ & _ & _ & M1). specialize (M1 eq_refl).
  unfold finally_pop. specialize (Hb a s1).
  destruct (body a s1) as [x s2|e s2|]; simpl in Hb; [| |done].
  - destruct Hb as [[G2 S2] M2]. rewrite (pop_pushed s2 (qp_stack (query s)) r) by congruence.
    pose proof (group_by_setup_sat env a fgb (mkSt (heap s2) (with_stack (query s2) (qp_stack (query s))))) as Hg.
    destruct (group_by_setup env a fgb _) as [[] s3|e s3|]; simpl in *; [| |done].
    + destruct Hg as [[G3 S3] M3]. split; [split|].
      * eapply grows_trans; [exact G1|]. eapply grows_trans; [exact G2|].
        eapply grows_trans; [apply grows_with_stack|exact G3].
      * rewrite S3. reflexivity.
      * rewrite M3; simpl; rewrite current_mask_with_stack. congruence.
    + destruct Hg as [G3 S3]. split.
      * eapply grows_trans; [exact G1|]. eapply grows_trans; [exact G2|].
        eapply grows_trans; [apply grows_with_stack|exact G3].
      * rewrite S3. reflexivity.
  - destruct Hb as [G2 S2]. rewrite (pop_pushed s2 (qp_stack (query s)) r) by congruence.
    split; [|reflexivity].
    eapply grows_trans; [exact G1|]. eapply grows_trans; [exact G2|apply grows_with_stack].
Qed.

Lemma set_at_set_add (h : Heap) (l : loc) (r : PropertyReference) :
  set_at (set_add h l r) l = {[r]} ∪ set_at h l.
Proof. apply set_at_insert_eq. Qed.

Ltac grows_step G :=
  eapply grows_trans; [exact G|]; constructor; simpl;
  rewrite ?dom_insert_L, ?set_at_set_add; try reflexivity; try set_solver.

Lemma enter_step (env : Env) (f : nat) (r : PropertyReference) (sel : bool) (s : St) :
  (forall e sm, sat (resolve_expression env f e sm)) ->
  enter_post r sel s (annotate_enter env (S f) r sel s).
Proof.
  intros IHx. cbn [annotate_enter].
  case_bool_decide as Hin; [apply inv_refl|].
  set (s1 := mkSt (heap s) (with_stack (query s) (qp_stack (query s) ++ [r]))).
  change ((mlet _ := push_stack r in ?k) s) with (k s1).
  match goal with |- context [on_error_pop (bind ?X ?K) s1] => set (X0 := X) end.
  assert (HX : post (fun _ s2 => Grows s1 s2 /\ qp_stack (query s2) = qp_stack (query s1) /\
                       r ∈ set_at (heap s2) (qp_annotations (query s2)) /\
                       (sel = false -> current_mask (query s2) = current_mask (query s)))
                    (fun _ s2 => Grows s1 s2 /\ qp_stack (query s2) = qp_stack (query s1))
                    s1 (X0 s1)).
  { unfold X0. case_bool_decide as Hset.
    - destruct (get_annotation env r) as [e|]; [|simpl; split; [apply grows_refl|reflexivity]].
      unfold add_annotation, bind. pose proof (IHx e false s1) as H2.
      destruct (resolve_expression env f e false s1) as [v s2|err s2|]; simpl in H2 |- *;
        [|exact H2|done].
      destruct H2 as [[G2 S2] M2].
      destruct sel; cbv [append_annotation_mask set_annotation_mask modify_query
                         qp_annotations_add ret]; simpl;
        destruct (annotation_select_mask (query s2)) as [m|] eqn:Em; simpl;
        (split; [grows_step G2|]); (split; [exact S2|]);
        (split; [rewrite set_at_set_add; set_solver|]).
      all: intros Hsel; first [discriminate | reflexivity].
    - destruct (decide (r ∈ set_at (heap s1) (qp_annotations (query s1)))) as [Hs'|Hs'];
        [clear Hset|contradiction].
      destruct (sel && bool_decide (annotation_select_mask (query s1) <> None)) eqn:Es.
      + simpl. split; [constructor; done|]. split; [done|]. split; [done|].
        intros ->. discriminate.
      + simpl. split; [apply grows_refl|]. split; [done|]. split; [done|].
        intros _. reflexivity. }
  destruct (X0 s1) as [[] s2|e s2|] eqn:E; simpl in HX.
  - destruct HX as (G2 & S2 & R2 & M2). unfold on_error_pop, bind. rewrite E.
    unfold lookup_annotation. destruct (annotations (query s2) !! full_path r) as [a|] eqn:Ea.
    + simpl. split; [eapply grows_trans; [apply grows_with_stack|exact G2]|].
      split; [exact S2|]. split; [exact Hin|]. split; [exact R2|]. split; [exact Ea|]. exact M2.
    + rewrite (pop_pushed s2 (qp_stack (query s)) r) by exact S2. simpl.
      split; [|reflexivity].
      eapply grows_trans; [apply grows_with_stack|]. eapply grows_trans; [exact G2|apply grows_with_stack].
  - destruct HX as (G2 & S2). unfold on_error_pop, bind. rewrite E.
    rewrite (pop_pushed s2 (qp_stack (query s)) r) by exact S2. simpl.
    split; [|reflexivity].
    eapply grows_trans; [apply grows_with_stack|]. eapply grows_trans; [exact G2|apply grows_with_stack].
  - unfold on_error_pop, bind. by rewrite E.
Qed.

Lemma sat_same {A} (m : M A) :
  (forall s, match m s with ROk _ s' | RErr _ s' => s' = s | RFuel => True end) -> sat m.
Proof.
  intros Hm s. specialize (Hm s). destruct (m s); simpl; try done; subst; auto using invok_refl, inv_refl.
Qed.

Lemma base_resolve_ref_sat (env : Env) (name : QueryPath) (sm : bool) :
  sat (base_resolve_ref env name sm).
Proof.
  apply sat_same. intros s. unfold base_resolve_ref.
  destruct (annotations (query s) !! name); [done|].
  unfold bind, names_to_path. destruct (base_names_to_path env _); done.
Qed.

Lemma mixin_sat (env : Env) (fuel : nat) :
  (forall r sel s, enter_post r sel s (annotate_enter env fuel r sel s)) /\
  (forall e sm, sat (resolve_expression env fuel e sm)) /\
  (forall name sm, sat (resolve_ref env fuel name sm)) /\
  (forall p fgb, sat (auto_annotate env fuel p fgb)).
Proof.
  induction fuel as [|f (IHe & IHx & IHr & IHa)].
  { repeat split; intros; try intros s; exact I. }
  split; [|split; [|split]].
  - intros r sel s. by apply enter_step.
  - intros e sm. destruct e as [name| | src | args | | ]; cbn [resolve_expression].
    + apply IHr.
    + apply sat_ret.
    + apply sat_bind; [apply IHx|]. intros; apply sat_ret.
    + apply sat_bind; [apply sat_mapM; intros; apply IHx|]. intros; apply sat_ret.
    + apply sat_ret.
    + apply sat_ret.
  - intros name sm s. cbn [resolve_ref].
    apply (sat_bind _ _ (IHa _ _)). intros [a|]; [apply sat_ret|apply base_resolve_ref_sat].
  - intros p fgb s. cbn [auto_annotate].
    destruct (resolve env p) as [[r lk]|]; [|apply invok_refl].
    apply sat_bind; [|intros; apply sat_ret].
    eapply with_property_annotation_sat; [apply IHe|intros; apply sat_ret].
Qed.

Lemma filter_sat (env : Env) (fuel : nat) :
  (forall e, sat (build_filter env fuel e)) /\ (forall q, sat (add_q env fuel q)).
Proof.
  induction fuel as [|f [IHb IHq]].
  { split; intros; intros s; exact I. }
  split.
  - intros e s. cbn [build_filter].
    assert (Hbase : post InvOk Inv s (match base_build_filter env (query s) e with
                                      | Some w => ROk w s | None => RErr FieldError s end)).
    { destruct (base_build_filter env (query s) e); simpl; auto using invok_refl, inv_refl. }
    destruct (unpack2 e) as [arg value| |]; try exact Hbase.
    destruct (query_path_of arg) as [qp|]; [|apply inv_refl].
    destruct (resolve env qp) as [[r lookups]|]; [|exact Hbase].
    case_bool_decide; [exact Hbase|].
    destruct (get_filter env r lookups value) as [q_obj|]; [|apply inv_refl].
    destruct (filter_requires_annotation env r); [|apply IHq].
    eapply with_property_annotation_sat; [apply (mixin_sat env f)|intros; apply IHq].
  - intros q. destruct q as [child|conn neg children]; cbn [add_q]; [apply IHb|].
    apply sat_bind; [apply sat_mapM; intros; apply IHq|]. intros; apply sat_ret.
Qed.

Lemma group_by_setup_shape (env : Env) (a : Expr) (fgb : bool) (s : St) :
  exists g sel,
    group_by_setup env a fgb s =
      ROk tt (mkSt (heap s) (mkQuery (annotations (query s)) (annotation_select_mask (query s))
                              g sel (qp_annotations (query s)) (qp_stack (query s))
                              (use_marker (query s)))).
Proof.
  destruct s as [h [ann m g sel l st u]].
  unfold group_by_setup. destruct (contains_aggregate a).
  - destruct (fgb && negb (annotation_to_aggregate_map env)).
    + by eexists _, _.
    + unfold bind. simpl.
      destruct (fgb && bool_decide (g = GBNone)); simpl; by eexists _, _.
  - by eexists _, _.
Qed.

Lemma enter_nodup (env : Env) (fuel : nat) (r : PropertyReference) (sel : bool) (s : St) :
  NoDup (qp_stack (query s)) -> nodup_after (annotate_enter env fuel r sel s).
Proof.
  intros Hnd. pose proof (proj1 (mixin_sat env fuel) r sel s) as H.
  destruct (annotate_enter env fuel r sel s) as [a s'|e s'|]; simpl in *; [| |done].
  - destruct H as (_ & -> & Hr & _). apply NoDup_app. repeat split; [done| |apply NoDup_singleton].
    intros x Hx ->%list_elem_of_singleton. contradiction.
  - destruct H as [_ ->]. exact Hnd.
Qed.

Lemma sat_nodup {A} (m : M A) (s : St) :
  sat m -> NoDup (qp_stack (query s)) -> nodup_after (m s).
Proof.
  intros Hm Hnd. specialize (Hm s).
  destruct (m s) as [a s'|e s'|]; simpl in *; [| |done].
  - destruct Hm as [[_ ->] _]. exact Hnd.
  - destruct Hm as [_ ->]. exact Hnd.
Qed.

(** C2: a reference already on the stack makes
    [_add_queryable_property_annotation] raise the circular-dependency
    error at once, with the state as it was (nothing pushed, nothing
    registered); the reference it pushes is never already there, so every
    method of the mixin, returning or raising, leaves a stack without
    duplicates when it was given one. *)
Theorem circular_dependency_guard (env : Env) :
  (forall f r sel s, r ∈ qp_stack (query s) ->
     annotate_enter env (S f) r sel s = RErr (CircularDependency r) s) /\
  (forall fuel r sel s a s', annotate_enter env fuel r sel s = ROk a s' ->
     (r ∉ qp_stack (query s)) /\ qp_stack (query s') = qp_stack (query s) ++ [r]) /\
  (forall fuel r sel s, NoDup (qp_stack (query s)) ->
     nodup_after (annotate_enter env fuel r sel s)) /\
  (forall fuel e sm s, NoDup (qp_stack (query s)) ->
     nodup_after (resolve_expression env fuel e sm s)) /\
  (forall fuel name sm s, NoDup (qp_stack (query s)) ->
     nodup_after (resolve_ref env fuel name sm s)) /\
  (forall fuel p fgb s, NoDup (qp_stack (query s)) ->
     nodup_after (auto_annotate env fuel p fgb s)) /\
  (forall fuel e s, NoDup (qp_stack (query s)) ->
     nodup_after (build_filter env fuel e s)) /\
  (forall fuel q s, NoDup (qp_stack (query s)) ->
     nodup_after (add_q env fuel q s)).
Proof.
  split; [|split; [|split; [|split; [|split; [|split; [|split]]]]]].
  - intros f r sel s Hr. cbn [annotate_enter]. by rewrite bool_decide_eq_true_2.
  - intros fuel r sel s a s' E. pose proof (proj1 (mixin_sat env fuel) r sel s) as H.
    rewrite E in H. destruct H as (_ & Hs & Hr & _). auto.
  - intros. by apply enter_nodup.
  - intros. apply sat_nodup; [apply (mixin_sat env fuel)|done].
  - intros. apply sat_nodup; [apply (mixin_sat env fuel)|done].
  - intros. apply sat_nodup; [apply (mixin_sat env fuel)|done].
  - intros. apply sat_nodup; [apply (filter_sat env fuel)|done].
  - intros. apply sat_nodup; [apply (filter_sat env fuel)|done].
Qed.

(** A witness for C2: the self-referencing annotation [circular], entered
    while it is on the stack, and the same reference annotated from an
    empty stack, which ends in the circular-dependency error with the
    stack emptied again. *)
Lemma circular_dependency_guard_witness :
  annotate_enter demo_env 5 (mkRef "circular" []) false
    (mkSt demo_heap (with_stack demo_query [mkRef "circular" []]))
  = RErr (CircularDependency (mkRef "circular" []))
      (mkSt demo_heap (with_stack demo_query [mkRef "circular" []])) /\
  nodup_after (auto_annotate demo_env 20 ["circular"] None demo_state) /\
  auto_annotate demo_env 20 ["circular"] None demo_state
    = RErr (CircularDependency (mkRef "circular" [])) demo_state.
Proof.
  destruct (circular_dependency_guard demo_env) as (H1 & _ & _ & _ & _ & H6 & _).
  split; [apply H1; by left|].
  split; [apply H6; apply NoDup_nil_2|].
  vm_compute. reflexivity.
Defined.

Lemma enter_reuse (env : Env) (f : nat) (r : PropertyReference) (sel : bool) (s : St) (e : Expr) :
  r ∈ set_at (heap s) (qp_annotations (query s)) -> r ∉ qp_stack (query s) ->
  annotations (query s) !! full_path r = Some e ->
  exists s', annotate_enter env (S f) r sel s = ROk e s' /\
    heap s' = heap s /\ annotations (query s') = annotations (query s) /\
    qp_stack (query s') = qp_stack (query s) ++ [r] /\
    (sel = false -> query s' = with_stack (query s) (qp_stack (query s) ++ [r])).
Proof.
  intros Hset Hst Hann. cbn [annotate_enter]. rewrite bool_decide_eq_false_2 by exact Hst.
  unfold bind, push_stack, modify_query, on_error_pop. simpl.
  rewrite bool_decide_eq_false_2 by (intros Hn; exact (Hn Hset)).
  destruct sel; simpl; [destruct (annotation_select_mask (query s)); simpl|].
  all: unfold lookup_annotation; simpl; rewrite Hann; eexists; split; [reflexivity|].
  all: repeat split; intros; try discriminate; reflexivity.
Qed.

(** C3: an attempt to annotate a reference that is already in the set
    registers nothing, reuses the registered expression and leaves the
    annotations and the set as they were; after a successful automatic
    annotation the reference is registered, and any number of further
    attempts return the same expression and keep the annotations
    unchanged, so one alias stays registered for the reference. *)
Theorem annotation_reuse (env : Env) (r : PropertyReference) :
  (forall f sel s e,
     r ∈ set_at (heap s) (qp_annotations (query s)) -> r ∉ qp_stack (query s) ->
     annotations (query s) !! full_path r = Some e ->
     exists s', annotate_enter env (S f) r sel s = ROk e s' /\
       heap s' = heap s /\ annotations (query s') = annotations (query s)) /\
  (forall f path lookups fgb s s1 e,
     resolve env path = Some (r, lookups) ->
     auto_annotate env f path fgb s = ROk (Some e) s1 -> registered_with r e s1) /\
  (forall f path lookups fgb s1 e,
     resolve env path = Some (r, lookups) -> registered_with r e s1 ->
     exists s2, auto_annotate env (S (S f)) path fgb s1 = ROk (Some e) s2 /\
       annotations (query s2) = annotations (query s1) /\ heap s2 = heap s1 /\
       registered_with r e s2).
Proof.
  split; [|split].
  - intros f sel s e Hset Hst Hann.
    destruct (enter_reuse env f r sel s e Hset Hst Hann) as (s' & E & Hh & Ha & _).
    exists s'. auto.
  - intros [|f] path lookups fgb s s1 e Hres H; [discriminate|].
    cbn [auto_annotate] in H. rewrite Hres in H. unfold with_property_annotation, bind in H.
    pose proof (proj1 (mixin_sat env f) r false s) as He.
    destruct (annotate_enter env f r false s) as [a se|err se|]; try discriminate.
    destruct He as (G & Hst & Hnot & Hin & Hann & _).
    unfold finally_pop, ret in H. rewrite (pop_pushed se (qp_stack (query s)) r Hst) in H.
    set (fgb' := match fgb with Some b => b | None => default_full_group_by env (query s) end) in H.
    destruct (group_by_setup_shape env a fgb' (mkSt (heap se) (with_stack (query se) (qp_stack (query s)))))
      as (g & sl & Hg).
    rewrite Hg in H. injection H as <- <-.
    unfold registered_with; simpl. auto.
  - intros f path lookups fgb s1 e Hres (Hset & Hst & Hann).
    cbn [auto_annotate]. rewrite Hres. unfold with_property_annotation, bind.
    destruct (enter_reuse env f r false s1 e Hset Hst Hann) as (se & E & Hh & Ha & Hs & Hq).
    rewrite E. unfold finally_pop, ret. rewrite (pop_pushed se (qp_stack (query s1)) r Hs).
    set (fgb' := match fgb with Some b => b | None => default_full_group_by env (query s1) end).
    destruct (group_by_setup_shape env e fgb' (mkSt (heap se) (with_stack (query se) (qp_stack (query s1)))))
      as (g & sl & Hg).
    rewrite Hg. eexists. split; [reflexivity|]. simpl.
    rewrite Hq by reflexivity. simpl. rewrite Hh.
    split; [reflexivity|]. split; [reflexivity|]. unfold registered_with; simpl. auto.
Qed.

(** A witness for C3: [version] annotated twice on the concrete
    configuration. *)
Lemma annotation_reuse_witness :
  exists s1 s2 e, auto_annotate demo_env 30 ["version"] None demo_state = ROk (Some e) s1 /\
    auto_annotate demo_env 30 ["version"] None s1 = ROk (Some e) s2 /\
    annotations (query s2) = annotations (query s1).
Proof.
  destruct (annotation_reuse demo_env (mkRef "version" [])) as (_ & H2 & H3).
  destruct (auto_annotate demo_env 30 ["version"] None demo_state) as [[e|] s1| |] eqn:E1;
    try (vm_compute in E1; discriminate).
  assert (Hr : registered_with (mkRef "version" []) e s1)
    by (apply (H2 30 ["version"] ["exact"] None demo_state s1 e); [reflexivity|exact E1]).
  destruct (H3 28 ["version"] ["exact"] None s1 e eq_refl Hr) as (s2 & E2 & Ha & _ & _).
  exists s1, s2, e. auto.
Defined.

Lemma stack_top_pushed (q : Query) (l : list PropertyReference) (r : PropertyReference) :
  qp_stack q = l ++ [r] -> stack_top q = Some r.
Proof. intros H. unfold stack_top. rewrite H. apply last_snoc. Qed.

(** C4: when a filter on a property whose filter needs its annotation is
    built successfully, the property's annotation is registered first (the
    filter of the property is added in a state where its alias holds the
    annotation and the property is on top of the stack), it stays
    registered, and the selected annotations are the ones selected before:
    the alias is selected afterwards only if it was selected before. *)
Theorem filter_annotation_not_selected (env : Env) (f : nat) (e arg value : PyVal)
    (s s' : St) (w : Where) (qp lookups : QueryPath) (P : PropertyReference) :
  unpack2 e = Unpacked arg value -> query_path_of arg = Some qp ->
  resolve env qp = Some (P, lookups) -> filter_requires_annotation env P = true ->
  stack_top (query s) <> Some P ->
  build_filter env (S f) e s = ROk w s' ->
  full_path P ∈ dom (annotations (query s')) /\
  current_mask (query s') = current_mask (query s) /\
  (full_path P ∉ current_mask (query s) -> full_path P ∉ current_mask (query s')) /\
  exists q_obj a s1 s2, get_filter env P lookups value = Some q_obj /\
    annotate_enter env f P false s = ROk a s1 /\
    annotations (query s1) !! full_path P = Some a /\ stack_top (query s1) = Some P /\
    add_q env f q_obj s1 = ROk w s2.
Proof.
  intros Hun Hqp Hres Hreq Htop H. cbn [build_filter] in H.
  rewrite Hun, Hqp, Hres, bool_decide_eq_false_2 in H by exact Htop.
  destruct (get_filter env P lookups value) as [q_obj|] eqn:Eg; [|discriminate].
  rewrite Hreq in H. unfold with_property_annotation, bind in H.
  pose proof (proj1 (mixin_sat env f) P false s) as He.
  destruct (annotate_enter env f P false s) as [a s1|err s1|] eqn:Ee; try discriminate.
  destruct He as (G1 & S1 & _ & _ & Hann & M1). specialize (M1 eq_refl).
  unfold finally_pop in H. pose proof (proj2 (filter_sat env f) q_obj s1) as Hq.
  destruct (add_q env f q_obj s1) as [w2 s2|err s2|] eqn:Eq; simpl in Hq.
  2: { destruct Hq as [_ S2].
       rewrite (pop_pushed s2 (qp_stack (query s)) P) in H by congruence. discriminate. }
  2: discriminate.
  destruct Hq as [[G2 S2] M2].
  rewrite (pop_pushed s2 (qp_stack (query s)) P) in H by congruence.
  set (fgb := default_full_group_by env (query s)) in H.
  destruct (group_by_setup_shape env a fgb (mkSt (heap s2) (with_stack (query s2) (qp_stack (query s)))))
    as (g & sl & Hg).
  rewrite Hg in H. simpl in H. injection H as <- <-.
  assert (Hcm : current_mask (query s2) = current_mask (query s)) by congruence.
  split; [|split; [|split]].
  - simpl. apply (grows_dom _ _ G2). apply elem_of_dom. by eexists.
  - exact Hcm.
  - intros Hn. unfold current_mask in *; simpl. exact (eq_ind _ (fun X => full_path P ∉ X) Hn _ (eq_sym Hcm)).
  - exists q_obj, a, s1, s2. repeat split; try done.
    by apply (stack_top_pushed _ (qp_stack (query s))).
Qed.

(** A witness for C4: a filter on [application__version_count__gt] from
    the root query. *)
Lemma filter_annotation_not_selected_witness :
  exists w s', build_filter demo_env 30 (PTuple [PStr "application__version_count__gt"; PInt 1])
                 demo_state = ROk w s' /\
    ["application"; "version_count"] ∈ dom (annotations (query s')) /\
    ["application"; "version_count"] ∉ current_mask (query s').
Proof.
  destruct (build_filter demo_env 30 (PTuple [PStr "application__version_count__gt"; PInt 1])
              demo_state) as [w s'| |] eqn:E; try (vm_compute in E; discriminate).
  destruct (filter_annotation_not_selected demo_env 29
              (PTuple [PStr "application__version_count__gt"; PInt 1]) (PStr "application__version_count__gt")
              (PInt 1) demo_state s' w ["application"; "version_count"; "gt"] ["gt"]
              (mkRef "version_count" ["application"]))
    as (Hd & _ & Hn & _); try reflexivity; [discriminate|exact E|].
  exists w, s'. split; [reflexivity|]. split; [exact Hd|]. apply Hn.
  vm_compute. intros Hx. discriminate.
Defined.

Lemma self_filter_loops (n : nat) :
  build_filter demo_env n self_filter_condition demo_state = RFuel /\
  add_q demo_env n (QLeaf self_filter_condition) demo_state = RFuel.
Proof.
  induction n as [|n [IH1 IH2]]; [split; reflexivity|]. split.
  - change (build_filter demo_env (S n) self_filter_condition demo_state)
      with (add_q demo_env n (QLeaf self_filter_condition) demo_state). exact IH2.
  - change (add_q demo_env (S n) (QLeaf self_filter_condition) demo_state)
      with (build_filter demo_env n self_filter_condition demo_state). exact IH1.
Qed.

(** C5 (counterexample): [self_filter] does not need its annotation, so
    it is never put on the stack; its filter, which refers to itself, is
    built again and again, and no amount of fuel ends the recursion. *)
Lemma self_filter_unbounded_cex :
  filter_requires_annotation demo_env (mkRef "self_filter" []) = false /\
  demo_get_filter (mkRef "self_filter" []) ["exact"] (PInt 1)
    = Some (QLeaf self_filter_condition) /\
  (forall n, build_filter demo_env n (PTuple [PStr "self_filter"; PInt 1]) demo_state = RFuel).
Proof.
  split; [reflexivity|]. split; [reflexivity|].
  intros [|[|n]]; [reflexivity|reflexivity|].
  change (build_filter demo_env (S (S n)) (PTuple [PStr "self_filter"; PInt 1]) demo_state)
    with (build_filter demo_env n self_filter_condition demo_state).
  apply self_filter_loops.
Qed.

(** C5 (amended): a filter whose path resolves to the reference on top of
    the stack goes to the native [build_filter] with the state untouched;
    the property's own filter is built with the reference on top of the
    stack only when the property needs its annotation for filtering,
    otherwise it is built with the stack as it was. *)
Theorem filter_stack_guard (env : Env) (f : nat) (e arg value : PyVal) (s : St)
    (qp lookups : QueryPath) (r : PropertyReference) :
  unpack2 e = Unpacked arg value -> query_path_of arg = Some qp ->
  resolve env qp = Some (r, lookups) ->
  (stack_top (query s) = Some r ->
     build_filter env (S f) e s =
       match base_build_filter env (query s) e with
       | Some w => ROk w s
       | None => RErr FieldError s
       end) /\
  (forall q_obj, stack_top (query s) <> Some r -> filter_requires_annotation env r = false ->
     get_filter env r lookups value = Some q_obj ->
     build_filter env (S f) e s = add_q env f q_obj s) /\
  (forall q_obj a s1, stack_top (query s) <> Some r -> filter_requires_annotation env r = true ->
     get_filter env r lookups value = Some q_obj ->
     annotate_enter env f r false s = ROk a s1 ->
     stack_top (query s1) = Some r /\
     build_filter env (S f) e s =
       (mlet x := finally_pop (add_q env f q_obj) in
        mlet _ := group_by_setup env a (default_full_group_by env (query s)) in
        ret x) s1).
Proof.
  intros Hun Hqp Hres. split; [|split].
  - intros Htop. cbn [build_filter]. rewrite Hun, Hqp, Hres, bool_decide_eq_true_2 by exact Htop.
    reflexivity.
  - intros q_obj Htop Hreq Hg. cbn [build_filter].
    rewrite Hun, Hqp, Hres, bool_decide_eq_false_2 by exact Htop. by rewrite Hg, Hreq.
  - intros q_obj a s1 Htop Hreq Hg Ee. split.
    + pose proof (proj1 (mixin_sat env f) r false s) as He. rewrite Ee in He.
      destruct He as (_ & Hs & _). exact (stack_top_pushed _ _ _ Hs).
    + cbn [build_filter]. rewrite Hun, Hqp, Hres, bool_decide_eq_false_2 by exact Htop.
      rewrite Hg, Hreq. unfold with_property_annotation. unfold bind at 1. by rewrite Ee.
Qed.

(** A witness for C5: inside the filter of [version_count] (on top of the
    stack, its annotation registered), its own condition goes to the native
    [build_filter], which finds the annotation. *)
Lemma filter_stack_guard_witness :
  build_filter demo_env 5
    (PTuple [PTuple [PStr "application"; PStr "version_count"; PStr "gt"]; PInt 1]) guarded_state
  = ROk (WNative (PTuple [PTuple [PStr "application"; PStr "version_count"; PStr "gt"]; PInt 1]))
        guarded_state.
Proof.
  destruct (filter_stack_guard demo_env 4
              (PTuple [PTuple [PStr "application"; PStr "version_count"; PStr "gt"]; PInt 1])
              (PTuple [PStr "application"; PStr "version_count"; PStr "gt"]) (PInt 1)
              guarded_state ["application"; "version_count"; "gt"] ["gt"]
              (mkRef "version_count" ["application"]) eq_refl eq_refl eq_refl) as (H1 & _ & _).
  rewrite H1 by reflexivity. reflexivity.
Defined.

(** C9 (counterexample): inside the filter of [has_versions], reached
    through [application], the sibling property [version_count] is found
    by [resolve_ref] (the path is prefixed) but not by [build_filter],
    which resolves [version_count__gt] from the root model and hands it to
    the native code, where it is no field. *)
Lemma filter_path_not_prefixed_cex :
  stack_top (query related_state) = Some (mkRef "has_versions" ["application"]) /\
  demo_resolve (["application"] ++ ["version_count"; "gt"])
    = Some (mkRef "version_count" ["application"], ["gt"]) /\
  build_filter demo_env 10 (PTuple [PStr "version_count__gt"; PInt 1]) related_state
    = RErr FieldError related_state /\
  match resolve_ref demo_env 10 ["version_count"] false related_state with
  | ROk a _ => a = EAgg (ECol ["application"; "versions"])
  | _ => False
  end.
Proof. split; [reflexivity|]. split; [reflexivity|]. split; vm_compute; reflexivity. Qed.

(** C9 (amended): while the stack is not empty, [names_to_path] and
    [resolve_ref] resolve the path prefixed with the relation path of the
    top of the stack; [build_filter] looks the filter path up unprefixed
    (from the root model), and a path that names no property from there
    goes to the native [build_filter]. *)
Theorem relation_prefix_resolution (env : Env) (s : St) (top : PropertyReference) :
  stack_top (query s) = Some top ->
  (forall names, names_to_path env names s =
     match base_names_to_path env (relation_path top ++ names) with
     | Some p => ROk p s
     | None => RErr FieldError s
     end) /\
  (forall f name sm, resolve_ref env (S f) name sm s =
     (mlet pa := auto_annotate env f (relation_path top ++ name) (Some (values_queryset_exists env)) in
      match pa with
      | Some a => ret (if sm then ERef name a else a)
      | None => base_resolve_ref env name sm
      end) s) /\
  (forall f e arg value qp, unpack2 e = Unpacked arg value -> query_path_of arg = Some qp ->
     resolve env qp = None ->
     build_filter env (S f) e s =
       match base_build_filter env (query s) e with
       | Some w => ROk w s
       | None => RErr FieldError s
       end).
Proof.
  intros Ht. split; [|split].
  - intros names. unfold names_to_path. by rewrite Ht.
  - intros f name sm. cbn [resolve_ref]. by rewrite Ht.
  - intros f e arg value qp Hun Hqp Hres. cbn [build_filter]. by rewrite Hun, Hqp, Hres.
Qed.

(** A witness for C9: the filter and the reference of the counterexample. *)
Lemma relation_prefix_resolution_witness :
  build_filter demo_env 10 (PTuple [PStr "version_count__gt"; PInt 1]) related_state
    = RErr FieldError related_state /\
  names_to_path demo_env ["name"] related_state = ROk ["application"; "name"] related_state.
Proof.
  destruct (relation_prefix_resolution demo_env related_state (mkRef "has_versions" ["application"])
              eq_refl) as (H1 & _ & H3).
  split.
  - rewrite (H3 9 _ (PStr "version_count__gt") (PInt 1) ["version_count"; "gt"]); reflexivity.
  - rewrite H1. reflexivity.
Defined.

Lemma col_eqb_refl (v : ColValue) : col_eqb v v = true.
Proof.
  destruct v as [|[]| |]; simpl; [done|done|done|apply Z.eqb_refl|apply String.eqb_refl].
Qed.

Lemma col_eqb_sym (v w : ColValue) : col_eqb v w = col_eqb w v.
Proof.
  destruct v as [|[]| |], w as [|[]| |]; simpl; try done.
  - apply Z.eqb_sym.
  - apply String.eqb_sym.
Qed.

Lemma col_eqb_trans (u v w : ColValue) :
  col_eqb u v = true -> col_eqb v w = true -> col_eqb u w = true.
Proof.
  destruct u as [|[]| |], v as [|[]| |], w as [|[]| |]; cbn [col_eqb Bool.eqb]; intros H1 H2;
    try discriminate; try reflexivity;
    rewrite ?Z.eqb_eq in *; rewrite ?String.eqb_eq in *; subst;
    rewrite ?Z.eqb_eq; rewrite ?String.eqb_eq; cbn [Z.b2z] in *; lia || reflexivity.
Qed.


Lemma merge_assignments_compatible (acc m : Row) :
  compatible acc m -> merge_assignments acc m = Some (acc ∪ m).
Proof.
  intros Hc. unfold merge_assignments.
  destruct (existsb _ _) eqn:E; [|reflexivity]. exfalso.
  apply existsb_exists in E as [[k w] [Hin Hk]]. simpl in Hk.
  apply list_elem_of_In, elem_of_map_to_list in Hin.
  destruct (acc !! k) as [u|] eqn:Hu; [|discriminate].
  rewrite (Hc k u w Hu Hin) in Hk. discriminate.
Qed.

Lemma merge_assignments_some (acc m acc' : Row) :
  merge_assignments acc m = Some acc' -> acc' = acc ∪ m /\ compatible acc m.
Proof.
  unfold merge_assignments. destruct (existsb _ _) eqn:E; [discriminate|].
  intros [= <-]. split; [reflexivity|]. intros c u w Hu Hw.
  destruct (col_eqb u w) eqn:Ecw; [reflexivity|]. exfalso.
  assert (Ht : existsb (fun kv => match acc !! kv.1 with
                                  | Some v => negb (col_eqb v kv.2)
                                  | None => false
                                  end) (map_to_list m) = true).
  { apply existsb_exists. exists (c, w). split.
    - apply list_elem_of_In, elem_of_map_to_list. exact Hw.
    - simpl. by rewrite Hu, Ecw. }
  rewrite Ht in E. discriminate.
Qed.

Lemma merge_sources_error (acc : Row) (ms : list Row) (e : UpdateError) :
  merge_sources acc ms = inl e -> e = UpdateConflict.
Proof.
  revert acc. induction ms as [|m ms IH]; intros acc; simpl; [discriminate|].
  destruct (merge_assignments acc m); [apply IH|congruence].
Qed.

Lemma merge_sources_ok (ms : list Row) (acc out : Row) :
  merge_sources acc ms = inr out ->
  out = foldl union acc ms /\
  (forall c u, acc !! c = Some u -> out !! c = Some u) /\
  (forall m, m ∈ ms -> forall c w, m !! c = Some w ->
     exists u, out !! c = Some u /\ col_eqb u w = true).
Proof.
  revert acc. induction ms as [|m ms IH]; intros acc H; simpl in H.
  - injection H as <-. split; [reflexivity|]. split; [done|]. intros m Hm. inversion Hm.
  - destruct (merge_assignments acc m) as [acc'|] eqn:Em; [|discriminate].
    apply merge_assignments_some in Em as [-> Hc].
    destruct (IH _ H) as (Hout & Hkeep & Hall). split; [exact Hout|]. split.
    + intros c u Hu. apply Hkeep. by apply lookup_union_Some_l.
    + intros m' Hm' c w Hw. apply elem_of_cons in Hm' as [->|Hm']; [|exact (Hall m' Hm' c w Hw)].
      destruct (acc !! c) as [u|] eqn:Hu.
      * exists u. split; [apply Hkeep, lookup_union_Some_l, Hu|exact (Hc c u w Hu Hw)].
      * exists w. split; [|apply col_eqb_refl]. apply Hkeep, lookup_union_Some_raw. right. split; assumption.
Qed.

Lemma merge_sources_agree (ms : list Row) (acc : Row) :
  (forall m1 m2 c v w, m1 ∈ ms -> m2 ∈ ms -> m1 !! c = Some v -> m2 !! c = Some w ->
     col_eqb v w = true) ->
  (forall m, m ∈ ms -> compatible acc m) ->
  merge_sources acc ms = inr (foldl union acc ms).
Proof.
  revert acc. induction ms as [|m ms IH]; intros acc Hpair Hacc; simpl; [reflexivity|].
  rewrite merge_assignments_compatible by (apply Hacc; left). apply IH.
  - intros m1 m2 c v w H1 H2. apply Hpair; by right.
  - intros m' Hm' c u w Hu Hw. apply lookup_union_Some_raw in Hu as [Hu|[_ Hu]].
    + apply (Hacc m' (proj2 (elem_of_cons _ _ _) (or_intror Hm')) c u w Hu Hw).
    + apply (Hpair m m' c u w); [left|right; exact Hm'|exact Hu|exact Hw].
Qed.

(** C8: an update whose keywords cannot all be resolved raises without an
    UPDATE; when they resolve and two of the resolved sources give one
    column values that are not equal, the update raises the conflict
    error, issues no UPDATE and leaves the table unchanged; when all
    sources agree on their shared columns, one UPDATE with the merged
    assignments is issued and applied to the selected rows. *)
Theorem update_conflicts (target : string -> UpdateTarget) (fuel : nat)
    (selected : Row -> bool) (table : list Row) (kwargs : list (string * ColValue)) :
  (forall e, resolve_sources target fuel kwargs = inl e ->
     queryset_update target fuel selected table kwargs = mkUpdateOutcome [] table (Some e)) /\
  (forall ms, resolve_sources target fuel kwargs = inr ms ->
     (exists m1 m2 c v w, m1 ∈ ms /\ m2 ∈ ms /\ m1 !! c = Some v /\ m2 !! c = Some w /\
                          col_eqb v w = false) ->
     queryset_update target fuel selected table kwargs
       = mkUpdateOutcome [] table (Some UpdateConflict)) /\
  (forall ms, resolve_sources target fuel kwargs = inr ms ->
     (forall m1 m2 c v w, m1 ∈ ms -> m2 ∈ ms -> m1 !! c = Some v -> m2 !! c = Some w ->
        col_eqb v w = true) ->
     queryset_update target fuel selected table kwargs
       = mkUpdateOutcome [foldl union ∅ ms] (native_update selected (foldl union ∅ ms) table) None).
Proof.
  unfold queryset_update, build_update_kwargs. split; [|split].
  - intros e ->. reflexivity.
  - intros ms -> (m1 & m2 & c & v & w & H1 & H2 & Hv & Hw & Hne).
    destruct (merge_sources ∅ ms) as [e|out] eqn:E.
    + by rewrite (merge_sources_error _ _ _ E).
    + exfalso. destruct (merge_sources_ok ms ∅ out E) as (_ & _ & Hall).
      destruct (Hall m1 H1 c v Hv) as (u1 & Hu1 & Huv).
      destruct (Hall m2 H2 c w Hw) as (u2 & Hu2 & Huw).
      rewrite Hu1 in Hu2. injection Hu2 as <-.
      rewrite col_eqb_sym in Huv. rewrite (col_eqb_trans v u1 w Huv Huw) in Hne. discriminate.
  - intros ms -> Hpair. rewrite merge_sources_agree; [reflexivity|exact Hpair|].
    intros m _ c u w Hu. unfold Row in Hu. by rewrite lookup_empty in Hu.
Qed.

Lemma sources_agree_spec (ms : list Row) :
  sources_agree ms = true ->
  forall m1 m2 c v w, m1 ∈ ms -> m2 ∈ ms -> m1 !! c = Some v -> m2 !! c = Some w ->
    col_eqb v w = true.
Proof.
  intros H m1 m2 c v w H1 H2 Hv Hw. unfold sources_agree in H.
  rewrite forallb_forall in H. apply list_elem_of_In in H1, H2.
  specialize (H m1 H1). rewrite forallb_forall in H. specialize (H m2 H2).
  rewrite forallb_forall in H.
  assert (Hin : In (c, v) (map_to_list m1)) by (apply list_elem_of_In, elem_of_map_to_list, Hv).
  specialize (H _ Hin). simpl in H. by rewrite Hw in H.
Qed.

Lemma update_conflicts_witness :
  queryset_update demo_update_target 5 (fun _ => true) [demo_row]
    [("version", CInt 2); ("major", CInt 3)]
  = mkUpdateOutcome [] [demo_row] (Some UpdateConflict) /\
  update_error (queryset_update demo_update_target 5 (fun _ => true) [demo_row]
                  [("release", CInt 1); ("major", CBool true)]) = None.
Proof.
  split.
  - destruct (resolve_sources demo_update_target 5 [("version", CInt 2); ("major", CInt 3)])
      as [e|ms] eqn:E; [vm_compute in E; discriminate|].
    destruct (update_conflicts demo_update_target 5 (fun _ => true) [demo_row]
                [("version", CInt 2); ("major", CInt 3)]) as (_ & H2 & _).
    apply (H2 ms E). vm_compute in E. injection E as <-.
    eexists _, _, "major", (CInt 2), (CInt 3).
    split; [apply elem_of_cons; left; reflexivity|].
    split; [apply elem_of_cons; right; apply elem_of_cons; left; reflexivity|].
    split; [reflexivity|]. split; reflexivity.
  - destruct (resolve_sources demo_update_target 5 [("release", CInt 1); ("major", CBool true)])
      as [e|ms] eqn:E; [vm_compute in E; discriminate|].
    destruct (update_conflicts demo_update_target 5 (fun _ => true) [demo_row]
                [("release", CInt 1); ("major", CBool true)]) as (_ & _ & H3).
    rewrite (H3 ms E); [reflexivity|].
    vm_compute in E. injection E as <-.
    apply sources_agree_spec. vm_compute. reflexivity.
Defined.

(* ------------------------------------------------------------------ *)
(** ** Further properties of the mixin and of the injected classes *)

Lemma auto_annotate_registers (env : Env) (f : nat) (p : QueryPath) (r : PropertyReference)
    (lk : QueryPath) (fgb : option bool) (s s1 : St) (a : option Expr) :
  resolve env p = Some (r, lk) -> auto_annotate env f p fgb s = ROk a s1 ->
  exists e, a = Some e /\ registered_with r e s1.
Proof.
  intros Hres H. destruct f as [|f]; [discriminate|].
  cbn [auto_annotate] in H. rewrite Hres in H. unfold with_property_annotation, bind in H.
  pose proof (proj1 (mixin_sat env f) r false s) as He.
  destruct (annotate_enter env f r false s) as [e se|err se|]; try discriminate.
  destruct He as (G & Hst & Hnot & Hin & Hann & _).
  unfold finally_pop, ret in H. rewrite (pop_pushed se (qp_stack (query s)) r Hst) in H.
  set (fgb' := match fgb with Some b => b | None => default_full_group_by env (query s) end) in H.
  destruct (group_by_setup_shape env e fgb' (mkSt (heap se) (with_stack (query se) (qp_stack (query s)))))
    as (g & sl & Hg).
  rewrite Hg in H. injection H as <- <-.
  exists e. split; [reflexivity|]. unfold registered_with; simpl. auto.
Qed.

(** Registration in the set and in the annotations survives every later
    step that keeps the invariant. *)
Lemma grows_registered (s s' : St) (r : PropertyReference) :
  Grows s s' ->
  r ∈ set_at (heap s) (qp_annotations (query s)) -> full_path r ∈ dom (annotations (query s)) ->
  r ∈ set_at (heap s') (qp_annotations (query s')) /\ full_path r ∈ dom (annotations (query s')).
Proof.
  intros [Hl _ Hd Hs] H1 H2. rewrite Hl. split; [by apply Hs|by apply Hd].
Qed.

Lemma annotate_orderings_sat (env : Env) (fuel : nat) (ordering : list PyVal) :
  sat (annotate_orderings env fuel ordering).
Proof.
  induction ordering as [|x rest IH]; simpl; [apply sat_ret|].
  apply sat_bind; [|intros; exact IH].
  destruct (ordering_path x); [|apply sat_ret].
  apply sat_bind; [apply (mixin_sat env fuel)|intros; apply sat_ret].
Qed.

Lemma annotate_orderings_registers (env : Env) (fuel : nat) (ordering : list PyVal) (s s' : St) :
  annotate_orderings env fuel ordering s = ROk tt s' ->
  forall x p r lookups, x ∈ ordering -> ordering_path x = Some p -> resolve env p = Some (r, lookups) ->
    r ∈ set_at (heap s') (qp_annotations (query s')) /\ full_path r ∈ dom (annotations (query s')).
Proof.
  revert s. induction ordering as [|y rest IH]; intros s H x p r lookups Hx Hp Hr;
    [by apply elem_of_nil in Hx|].
  simpl in H. unfold bind at 1 in H.
  set (step := match ordering_path y with
               | Some p0 => mlet _ := auto_annotate env fuel p0 None in ret tt
               | None => ret tt
               end) in H.
  destruct (step s) as [[] s1|e s1|] eqn:Es; try discriminate.
  apply elem_of_cons in Hx as [->|Hx]; [|exact (IH s1 H x p r lookups Hx Hp Hr)].
  pose proof (annotate_orderings_sat env fuel rest s1) as Hs. rewrite H in Hs.
  destruct Hs as [[G _] _].
  unfold step in Es. rewrite Hp in Es. unfold bind in Es.
  destruct (auto_annotate env fuel p None s) as [a s0|e s0|] eqn:Ea; try discriminate.
  injection Es as <-.
  destruct (auto_annotate_registers env fuel p r lookups None s s0 a Hr Ea)
    as (e & -> & Hset & _ & Hann).
  apply (grows_registered s0 s' r G Hset). apply elem_of_dom. by eexists.
Qed.

(** after [add_ordering] succeeds, every property named by a string
    of the ordering ([-] removed, ['?'] excepted) is registered. *)
Theorem add_ordering_annotates (env : Env) (base_add_ordering : Query -> list PyVal -> bool)
    (fuel : nat) (ordering : list PyVal) (s s' : St) :
  add_ordering env base_add_ordering fuel ordering s = ROk tt s' ->
  forall x p r lookups, x ∈ ordering -> ordering_path x = Some p -> resolve env p = Some (r, lookups) ->
    r ∈ set_at (heap s') (qp_annotations (query s')) /\ full_path r ∈ dom (annotations (query s')).
Proof.
  intros H. unfold add_ordering, bind in H.
  destruct (annotate_orderings env fuel ordering s) as [[] s1|e s1|] eqn:E; try discriminate.
  destruct (base_add_ordering (query s1) ordering); [|discriminate]. injection H as <-.
  exact (annotate_orderings_registers env fuel ordering s s1 E).
Qed.

Lemma add_ordering_annotates_witness :
  exists s', add_ordering demo_env (fun _ _ => true) 20 [PStr "-version"; PStr "?"; PInt 1] demo_state
               = ROk tt s' /\
    mkRef "version" [] ∈ set_at (heap s') (qp_annotations (query s')) /\
    ["version"] ∈ dom (annotations (query s')).
Proof.
  destruct (add_ordering demo_env (fun _ _ => true) 20 [PStr "-version"; PStr "?"; PInt 1] demo_state)
    as [[] s'|e s'|] eqn:E; try (vm_compute in E; discriminate).
  exists s'. split; [reflexivity|].
  apply (add_ordering_annotates demo_env (fun _ _ => true) 20 _ demo_state s' E
           (PStr "-version") ["version"] (mkRef "version" []) ["exact"]).
  - apply elem_of_cons. left. reflexivity.
  - reflexivity.
  - reflexivity.
Defined.

(** [add_ordering] never changes which annotations are selected, nor
    the stack, the marker flag or the set object; registrations are only
    added; a failing call leaves the stack as it was. *)
Theorem add_ordering_keeps_selection (env : Env) (base_add_ordering : Query -> list PyVal -> bool)
    (fuel : nat) (ordering : list PyVal) (s : St) :
  match add_ordering env base_add_ordering fuel ordering s with
  | ROk _ s' =>
      current_mask (query s') = current_mask (query s) /\
      qp_stack (query s') = qp_stack (query s) /\
      use_marker (query s') = use_marker (query s) /\
      qp_annotations (query s') = qp_annotations (query s) /\
      dom (annotations (query s)) ⊆ dom (annotations (query s')) /\
      set_at (heap s) (qp_annotations (query s)) ⊆ set_at (heap s') (qp_annotations (query s'))
  | RErr _ s' => qp_stack (query s') = qp_stack (query s)
  | RFuel => True
  end.
Proof.
  assert (Hb : sat (fun s0 : St => if base_add_ordering (query s0) ordering
                                  then ROk tt s0 else RErr FieldError s0)).
  { apply sat_same. intros s0. by destruct (base_add_ordering (query s0) ordering). }
  pose proof (sat_bind _ _ (annotate_orderings_sat env fuel ordering) (fun _ => Hb) s) as H.
  unfold add_ordering. destruct (bind _ _ s) as [a s'|e s'|]; simpl in H; [|by destruct H|done].
  destruct H as [[[Hl Hm Hd Hs] Hst] Hc].
  repeat split; try assumption. by rewrite Hl.
Qed.




Lemma od_assign_new {V} (d : list (string * V)) (k : string) (v : V) :
  k ∉ d.*1 -> od_assign d k v = d ++ [(k, v)].
Proof.
  induction d as [|[k' v'] rest IH]; intros Hk; simpl; [reflexivity|].
  simpl in Hk. rewrite not_elem_of_cons in Hk. destruct Hk as [Hne Hk].
  destruct (String.eqb_spec k k') as [->|_]; [congruence|]. by rewrite IH.
Qed.

Lemma od_fold_fresh {V} (l : list (string * V)) (d : list (string * V)) :
  NoDup l.*1 -> (forall k, k ∈ l.*1 -> k ∉ d.*1) ->
  fold_left (fun acc kv => od_assign acc kv.1 kv.2) l d = d ++ l.
Proof.
  revert d. induction l as [|[k v] rest IH]; intros d Hnd Hfresh.
  - by rewrite app_nil_r.
  - simpl in *. apply NoDup_cons in Hnd as [Hk Hnd].
    rewrite od_assign_new by (apply Hfresh; left).
    rewrite IH; [by rewrite <- app_assoc|exact Hnd|].
    intros k' Hk'. rewrite fmap_app. simpl. rewrite elem_of_app, list_elem_of_singleton.
    intros [Hin | ->]; [|contradiction]. apply (Hfresh k'); [right|]; assumption.
Qed.

(** on old versions, [aggregate_select] lists the marker first when
    the flag is set: before Django's aggregates, with the value [None];
    should Django's dictionary hold the marker already, its entry moves to
    the front; without the flag the dictionary is Django's.  Once
    [get_compiler] has read and reset the flag, the query lists no
    marker. *)
Theorem aggregate_select_marker_first (q : Query) (original : list (string * option Expr)) :
  (use_marker q = false -> aggregate_select q original = original) /\
  (use_marker q = true -> NoDup original.*1 -> QUERYING_PROPERTIES_MARKER ∉ original.*1 ->
     aggregate_select q original = (QUERYING_PROPERTIES_MARKER, None) :: original) /\
  (forall l1 l2 v, use_marker q = true -> NoDup original.*1 ->
     original = l1 ++ (QUERYING_PROPERTIES_MARKER, v) :: l2 ->
     aggregate_select q original = (QUERYING_PROPERTIES_MARKER, v) :: l1 ++ l2) /\
  aggregate_select (get_compiler q).2 original = original.
Proof.
  unfold aggregate_select. split; [|split; [|split]].
  - by intros ->.
  - intros -> Hnd Hm. rewrite od_fold_fresh; [reflexivity|exact Hnd|].
    intros k Hk. simpl. rewrite list_elem_of_singleton. intros ->. contradiction.
  - intros l1 l2 v -> Hnd ->.
    rewrite fmap_app in Hnd. simpl in Hnd.
    apply NoDup_app in Hnd as (Hnd1 & Hdisj & Hnd2). apply NoDup_cons in Hnd2 as [Hm2 Hnd2].
    assert (Hm1 : QUERYING_PROPERTIES_MARKER ∉ l1.*1).
    { intros Hin. apply (Hdisj _ Hin). left. }
    rewrite fold_left_app. simpl.
    rewrite (od_fold_fresh l1); [|exact Hnd1|].
    2: { intros k Hk. simpl. rewrite list_elem_of_singleton. intros ->. contradiction. }
    simpl. rewrite od_fold_fresh; [reflexivity|exact Hnd2|].
    intros k Hk. simpl. rewrite not_elem_of_cons. split; [intros ->; contradiction|].
    intros Hk1. apply (Hdisj k Hk1). by right.
  - reflexivity.
Qed.

Lemma aggregate_select_marker_first_witness :
  aggregate_select marked_query [("version_count", Some (EAgg (EF ["versions"])))]
    = [(QUERYING_PROPERTIES_MARKER, None); ("version_count", Some (EAgg (EF ["versions"])))].
Proof.
  destruct (aggregate_select_marker_first marked_query [("version_count", Some (EAgg (EF ["versions"])))])
    as (_ & H2 & _).
  apply H2.
  - reflexivity.
  - apply NoDup_singleton.
  - simpl. rewrite list_elem_of_singleton. discriminate.
Defined.

Lemma fresh_class_unknown (cs : ClassStore) :
  class_names cs !! fresh (dom (class_names cs)) = None.
Proof. apply not_elem_of_dom, is_fresh. Qed.

(** [mix_with_class] is memoised: asked again for the same base class,
    mixin and name ([None] and [''] standing for the base class's
    [__name__]) it returns the same class and changes nothing; a class it
    returns is named by the key and no other key ever yields it. *)
Theorem mix_with_class_cached (cs : ClassStore) (cls base : positive) (class_name : option string) :
  cache_ok cs -> base ∈ dom (class_names cs) ->
  let c := (mix_with_class cs cls base class_name).1 in
  let cs' := (mix_with_class cs cls base class_name).2 in
  cache_ok cs' /\
  class_names cs' !! c = Some (mixed_class_name cs base class_name) /\
  mix_with_class cs' cls base class_name = (c, cs') /\
  (forall cls2 base2 name2,
     (base2, cls2, mixed_class_name cs' base2 name2) <> (base, cls, mixed_class_name cs base class_name) ->
     (mix_with_class cs' cls2 base2 name2).1 <> c) /\
  (forall n, class_names cs !! base = Some n ->
     mix_with_class cs cls base None = mix_with_class cs cls base (Some EmptyString) /\
     mix_with_class cs cls base None = mix_with_class cs cls base (Some n)).
Proof.
  intros [Hn Hinj] Hb.
  assert (Hname : forall n, class_names cs !! base = Some n ->
     mix_with_class cs cls base None = mix_with_class cs cls base (Some EmptyString) /\
     mix_with_class cs cls base None = mix_with_class cs cls base (Some n)).
  { intros n Hbn. unfold mix_with_class, mixed_class_name. rewrite Hbn. simpl.
    split; [reflexivity|]. destruct (String.eqb_spec n EmptyString) as [->|_]; reflexivity. }
  unfold mix_with_class at 1 2 3.
  set (name := mixed_class_name cs base class_name).
  destruct (created_classes cs !! (base, cls, name)) as [c|] eqn:Ec; simpl.
  - split; [split; assumption|]. split; [exact (Hn _ _ Ec)|].
    split; [unfold mix_with_class; fold name; by rewrite Ec|]. split; [|exact Hname].
    intros cls2 base2 name2 Hne. unfold mix_with_class.
    destruct (created_classes cs !! (base2, cls2, mixed_class_name cs base2 name2)) as [c2|] eqn:E2;
      simpl.
    + intros ->. apply Hne. exact (Hinj _ _ _ E2 Ec).
    + intros Hc. pose proof (fresh_class_unknown cs) as Hf. rewrite Hc, (Hn _ _ Ec) in Hf.
      discriminate.
  - set (c := fresh (dom (class_names cs))).
    assert (Hc : class_names cs !! c = None) by apply fresh_class_unknown.
    assert (Hcb : base <> c) by (intros ->; apply elem_of_dom in Hb as [? Hx]; congruence).
    assert (Hcached : forall k c0, created_classes cs !! k = Some c0 -> c0 <> c).
    { intros k c0 Hk ->. rewrite (Hn _ _ Hk) in Hc. discriminate. }
    assert (Hname' : mixed_class_name (mkClassStore (<[c:=name]> (class_names cs))
                        (<[(base, cls, name):=c]> (created_classes cs))) base class_name = name).
    { unfold mixed_class_name, name; simpl. by rewrite lookup_insert_ne by congruence. }
    split; [split|].
    + intros k c0 Hk. simpl in *. destruct (decide (k = (base, cls, name))) as [->|Hne].
      * rewrite lookup_insert_eq in Hk. injection Hk as <-. by rewrite lookup_insert_eq.
      * rewrite lookup_insert_ne in Hk by congruence.
        rewrite lookup_insert_ne by (apply not_eq_sym, (Hcached _ _ Hk)). exact (Hn _ _ Hk).
    + intros k1 k2 c0 H1 H2. simpl in *.
      destruct (decide (k1 = (base, cls, name))) as [->|Hne1],
               (decide (k2 = (base, cls, name))) as [->|Hne2]; try reflexivity.
      * rewrite lookup_insert_eq in H1. rewrite lookup_insert_ne in H2 by congruence.
        injection H1 as <-. exfalso. exact (Hcached _ _ H2 eq_refl).
      * rewrite lookup_insert_eq in H2. rewrite lookup_insert_ne in H1 by congruence.
        injection H2 as <-. exfalso. exact (Hcached _ _ H1 eq_refl).
      * rewrite lookup_insert_ne in H1, H2 by congruence. exact (Hinj _ _ _ H1 H2).
    + split; [simpl; by rewrite lookup_insert_eq|].
      split; [unfold mix_with_class; rewrite Hname'; simpl; by rewrite lookup_insert_eq|].
      split; [|exact Hname].
      intros cls2 base2 name2 Hne. unfold mix_with_class. simpl.
      rewrite lookup_insert_ne by (apply not_eq_sym; exact Hne).
      destruct (created_classes cs !! (base2, cls2, _)) as [c2|] eqn:E2; simpl.
      * exact (Hcached _ _ E2).
      * intros Hf. pose proof (is_fresh (dom (<[c:=name]> (class_names cs)))) as Hfr.
        rewrite Hf in Hfr. apply Hfr. rewrite dom_insert_L. set_solver.
Qed.

Lemma mix_with_class_cached_witness :
  mix_with_class (mix_with_class (mkClassStore {[1%positive := "Query"]} ∅) 2 1 None).2 2 1 None
    = mix_with_class (mkClassStore {[1%positive := "Query"]} ∅) 2 1 None /\
  mix_with_class (mkClassStore {[1%positive := "Query"]} ∅) 2 1 None
    = mix_with_class (mkClassStore {[1%positive := "Query"]} ∅) 2 1 (Some "").
Proof.
  destruct (mix_with_class_cached (mkClassStore {[1%positive := "Query"]} ∅) 2 1 None)
    as (_ & _ & H3 & _ & H5).
  - split; simpl; [intros k c Hk|intros k1 k2 c Hk]; rewrite lookup_empty in Hk; discriminate.
  - simpl. rewrite dom_singleton_L. apply elem_of_singleton. reflexivity.
  - split; [|exact (proj1 (H5 "Query" eq_refl))].
    rewrite H3. apply surjective_pairing.
Defined.


Lemma group_by_setup_aggregate (env : Env) (a : Expr) (fgb : bool) (s s' : St) :
  contains_aggregate a = true -> group_by_setup env a fgb s = ROk tt s' ->
  group_by (query s') = if fgb && negb (annotation_to_aggregate_map env) then GBAll else GBComputed.
Proof.
  intros Ha H. unfold group_by_setup in H. rewrite Ha in H.
  destruct (fgb && negb (annotation_to_aggregate_map env)).
  - injection H as <-. reflexivity.
  - unfold bind in H.
    destruct (fgb && bool_decide (group_by (query s) = GBNone)); simpl in H;
      injection H as <-; reflexivity.
Qed.

(** when [_auto_annotate] has annotated a property whose annotation
    aggregates, the query is grouped: by all fields ([group_by = True])
    when a full GROUP BY is asked for on recent versions, by the computed
    GROUP BY ([set_group_by]) otherwise. *)
Theorem aggregate_annotation_groups (env : Env) (f : nat) (p : QueryPath) (fgb : option bool)
    (s s' : St) (a : Expr) :
  auto_annotate env f p fgb s = ROk (Some a) s' -> contains_aggregate a = true ->
  group_by (query s') =
    if (match fgb with Some b => b | None => default_full_group_by env (query s) end)
       && negb (annotation_to_aggregate_map env)
    then GBAll else GBComputed.
Proof.
  intros H Hagg. destruct f as [|f]; [discriminate|]. cbn [auto_annotate] in H.
  destruct (resolve env p) as [[r lk]|]; [|discriminate].
  unfold with_property_annotation, bind in H.
  pose proof (proj1 (mixin_sat env f) r false s) as He.
  destruct (annotate_enter env f r false s) as [e se|err se|]; try discriminate.
  destruct He as (_ & Hst & _).
  unfold finally_pop, ret in H. rewrite (pop_pushed se (qp_stack (query s)) r Hst) in H.
  set (fgb' := match fgb with Some b => b | None => default_full_group_by env (query s) end) in H |- *.
  destruct (group_by_setup env e fgb' _) as [[] s3|err s3|] eqn:Eg; try discriminate.
  injection H as -> <-. exact (group_by_setup_aggregate env a fgb' _ s3 Hagg Eg).
Qed.

Lemma aggregate_annotation_groups_witness :
  exists s', auto_annotate demo_env 20 ["application"; "version_count"] None demo_state
               = ROk (Some (EAgg (ECol ["application"; "versions"]))) s' /\
    group_by (query s') = GBComputed.
Proof.
  destruct (auto_annotate demo_env 20 ["application"; "version_count"] None demo_state)
    as [[a|] s'| |] eqn:E; try (vm_compute in E; discriminate).
  assert (Ha : a = EAgg (ECol ["application"; "versions"])) by (vm_compute in E; congruence). subst a.
  exists s'. split; [reflexivity|].
  exact (aggregate_annotation_groups demo_env 20 _ None demo_state s' _ E eq_refl).
Defined.



(** [resolve_ref] on a name whose prefixed path names a property
    returns, when it succeeds, the expression registered under the
    property's alias (the property being registered), wrapped for an outer
    aggregation in a [Ref] that carries the name as written; a name that
    names no property is left to Django's [resolve_ref], with the query
    untouched by the mixin. *)
Theorem resolve_ref_property_value (env : Env) (f : nat) (name : QueryPath) (sm : bool) (s : St) :
  let query_path := match stack_top (query s) with
                    | Some top => relation_path top ++ name
                    | None => name
                    end in
  (forall r lk v s', resolve env query_path = Some (r, lk) ->
     resolve_ref env f name sm s = ROk v s' ->
     exists a, annotations (query s') !! full_path r = Some a /\
       r ∈ set_at (heap s') (qp_annotations (query s')) /\
       v = if sm then ERef name a else a) /\
  (resolve env query_path = None ->
     resolve_ref env (S (S f)) name sm s = base_resolve_ref env name sm s).
Proof.
  intros query_path. split.
  - intros r lk v s' Hres H. destruct f as [|f]; [discriminate|].
    cbn [resolve_ref] in H. fold query_path in H. unfold bind at 1 in H.
    destruct (auto_annotate env f query_path (Some (values_queryset_exists env)) s)
      as [pa s1|e s1|] eqn:Ea; try discriminate.
    destruct (auto_annotate_registers env f query_path r lk _ s s1 pa Hres Ea)
      as (e & -> & Hset & _ & Hann).
    injection H as <- <-. exists e. auto.
  - intros Hres. cbn [resolve_ref]. fold query_path.
    cbn [auto_annotate]. unfold bind. rewrite Hres. reflexivity.
Qed.

Lemma resolve_ref_property_value_witness :
  exists s', resolve_ref demo_env 10 ["version_count"] true related_state
               = ROk (ERef ["version_count"] (EAgg (ECol ["application"; "versions"]))) s' /\
    annotations (query s') !! ["application"; "version_count"]
      = Some (EAgg (ECol ["application"; "versions"])).
Proof.
  destruct (resolve_ref demo_env 10 ["version_count"] true related_state) as [v s'| |] eqn:E;
    try (vm_compute in E; discriminate).
  destruct (resolve_ref_property_value demo_env 10 ["version_count"] true related_state) as [H1 _].
  destruct (H1 (mkRef "version_count" ["application"]) ["exact"] v s' eq_refl E) as (a & Ha & _ & Hv).
  assert (Ha' : a = EAgg (ECol ["application"; "versions"])).
  { subst v. vm_compute in E. congruence. }
  subst a. exists s'. split; [rewrite Hv; reflexivity|exact Ha].
Defined.

(** a property that cannot build its annotation makes
    [_add_queryable_property_annotation] raise with the query exactly as it
    was (the stack popped again, nothing registered, the mask untouched);
    [_auto_annotate] and a [build_filter] that needs the annotation raise the
    same error with the same untouched query. *)
Theorem missing_annotation_leaves_query (env : Env) (f : nat) (r : PropertyReference) (s : St) :
  r ∉ qp_stack (query s) -> r ∉ set_at (heap s) (qp_annotations (query s)) ->
  get_annotation env r = None ->
  (forall sel, annotate_enter env (S f) r sel s = RErr QueryablePropertyError s) /\
  (forall p lk fgb, resolve env p = Some (r, lk) ->
     auto_annotate env (S (S f)) p fgb s = RErr QueryablePropertyError s) /\
  (forall e arg value qp lk q_obj, unpack2 e = Unpacked arg value -> query_path_of arg = Some qp ->
     resolve env qp = Some (r, lk) -> get_filter env r lk value = Some q_obj ->
     filter_requires_annotation env r = true ->
     build_filter env (S (S f)) e s = RErr QueryablePropertyError s).
Proof.
  intros Hst Hset Hga.
  assert (Henter : forall f' sel, annotate_enter env (S f') r sel s = RErr QueryablePropertyError s).
  { intros f' sel. cbn [annotate_enter]. rewrite bool_decide_eq_false_2 by exact Hst.
    unfold bind, push_stack, modify_query, on_error_pop. simpl.
    rewrite bool_decide_eq_true_2 by exact Hset. rewrite Hga.
    rewrite (pop_pushed _ (qp_stack (query s)) r) by reflexivity.
    destruct s as [h [? ? ? ? ? ? ?]]. reflexivity. }
  split; [|split].
  - intros sel. apply Henter.
  - intros p lk fgb Hres. cbn [auto_annotate]. rewrite Hres.
    unfold with_property_annotation, bind. by rewrite Henter.
  - intros e arg value qp lk q_obj Hun Hqp Hres Hg Hreq. cbn [build_filter].
    rewrite Hun, Hqp, Hres.
    rewrite bool_decide_eq_false_2.
    2: { unfold stack_top. intros Ht. apply Hst. by apply last_Some_elem_of. }
    rewrite Hg, Hreq. unfold with_property_annotation, bind. by rewrite Henter.
Qed.

Lemma missing_annotation_leaves_query_witness :
  auto_annotate demo_env 10 ["major_minor"] None demo_state = RErr QueryablePropertyError demo_state.
Proof.
  destruct (missing_annotation_leaves_query demo_env 8 (mkRef "major_minor" []) demo_state)
    as (_ & H2 & _).
  - simpl. apply not_elem_of_nil.
  - vm_compute. intros Hx. inversion Hx.
  - reflexivity.
  - exact (H2 ["major_minor"] ["exact"] None eq_refl).
Defined.

(** every method of the mixin, whether it returns or raises, leaves the
    stack as it found it, keeps the marker flag and the set object of the
    query, and loses no annotation and no registered property; when it
    returns, the selected annotations are the ones selected before. *)
Theorem mixin_methods_restore_state (env : Env) (fuel : nat) :
  (forall e s, post InvOk Inv s (build_filter env fuel e s)) /\
  (forall q s, post InvOk Inv s (add_q env fuel q s)) /\
  (forall name sm s, post InvOk Inv s (resolve_ref env fuel name sm s)) /\
  (forall p fgb s, post InvOk Inv s (auto_annotate env fuel p fgb s)) /\
  (forall e sm s, post InvOk Inv s (resolve_expression env fuel e sm s)).
Proof.
  destruct (filter_sat env fuel) as [Hb Hq].
  destruct (mixin_sat env fuel) as (_ & Hx & Hr & Ha).
  split; [exact Hb|]. split; [exact Hq|]. split; [|split].
  - intros name sm. exact (Hr name sm).
  - intros p fgb. exact (Ha p fgb).
  - intros e sm. exact (Hx e sm).
Qed.
